(** * fetch_narrative_watchlists: a shallow embedding and its properties

    The development follows [src/fetch_narrative_watchlists.py].  Pure
    helpers (ordered dictionaries, the aggregation loop of [main], the index
    strings, the Link-header parser, the watchlist writer) are plain
    functions; the code that talks to the clock and to the network runs in a
    small state-and-exception monad over an explicit [World]. *)

From Stdlib Require Import ZArith QArith Lia Lqa Ascii String DecimalString.
From stdpp Require Import gmap strings list.

Local Open Scope string_scope.

(** ** Exceptions and fallible pure code *)

Inductive exn : Type :=
| HTTPError (status_code : Z)
| KeyError (key : string)
| IndexError
| ValueError
| TypeError.

Inductive result (A : Type) : Type :=
| Ok (a : A)
| Raise (e : exn).
Arguments Ok {A} a.
Arguments Raise {A} e.

Definition rbind {A B} (r : result A) (k : A -> result B) : result B :=
  match r with
  | Ok a => k a
  | Raise e => Raise e
  end.

(** ** Insertion-ordered dictionaries

    [OrderedDict] (and the built-in [dict]) keep their keys in first-insertion
    order; assigning to a key that is already there replaces the value and
    leaves the position alone. *)

Definition odict (V : Type) : Type := list (string * V).

Fixpoint od_get {V} (k : string) (d : odict V) : option V :=
  match d with
  | [] => None
  | (k', v) :: d' => if String.eqb k' k then Some v else od_get k d'
  end.

Fixpoint od_set {V} (k : string) (v : V) (d : odict V) : odict V :=
  match d with
  | [] => [(k, v)]
  | (k', v') :: d' =>
      if String.eqb k' k then (k', v) :: d' else (k', v') :: od_set k v d'
  end.

Definition od_keys {V} (d : odict V) : list string := fst <$> d.

(** [OrderedDict(pairs)] and a dict comprehension: assign the pairs in order. *)
Definition od_of_pairs {V} (l : list (string * V)) : odict V :=
  foldl (fun d kv => od_set (fst kv) (snd kv) d) [] l.

(** What the type [dict] guarantees: no key occurs twice. *)
Definition od_wf {V} (d : odict V) : Prop := NoDup (od_keys d).

(** ** Aggregation step of [main] (lines 181-185) *)

Record category : Type := { cat_id : string; cat_name : string }.

(** [categorized_tickers[name].append(t)] *)
Definition append_ticker (name t : string) (ct : odict (list string))
  : result (odict (list string)) :=
  match od_get name ct with
  | Some l => Ok (od_set name (l ++ [t])%list ct)
  | None => Raise (KeyError name)
  end.

(** [for coin_id in coins: if coin_id in ticker_dict: ...append(...)] *)
Fixpoint append_category_tickers (ticker_dict : gmap string string)
  (name : string) (coins : list string) (ct : odict (list string))
  : result (odict (list string)) :=
  match coins with
  | [] => Ok ct
  | coin_id :: rest =>
      match ticker_dict !! coin_id with
      | Some t =>
          rbind (append_ticker name t ct)
                (append_category_tickers ticker_dict name rest)
      | None => append_category_tickers ticker_dict name rest ct
      end
  end.

(** [for cat in categories: for coin_id in category_coins[cat['id']]: ...] *)
Fixpoint categorize_loop (category_coins : odict (list string))
  (ticker_dict : gmap string string) (cats : list category)
  (ct : odict (list string)) : result (odict (list string)) :=
  match cats with
  | [] => Ok ct
  | cat :: rest =>
      match od_get (cat_id cat) category_coins with
      | None => Raise (KeyError (cat_id cat))
      | Some coins =>
          rbind (append_category_tickers ticker_dict (cat_name cat) coins ct)
                (categorize_loop category_coins ticker_dict rest)
      end
  end.

Definition categorized_tickers (categories : list category)
  (category_coins : odict (list string)) (ticker_dict : gmap string string)
  : result (odict (list string)) :=
  categorize_loop category_coins ticker_dict categories
    (od_of_pairs ((fun cat => (cat_name cat, [])) <$> categories)).

(** The distinct entries of a list, each at the place of its first
    occurrence: the key order of a dict whose keys were assigned in the
    order of the list. *)
Fixpoint first_occurrences (l : list string) : list string :=
  match l with
  | [] => []
  | x :: l' => x :: filter (fun y => y <> x) (first_occurrences l')
  end.

(** The tickers a coin list resolves to, in the list's order. *)
Definition resolved_tickers (ticker_dict : gmap string string)
  (coins : list string) : list string :=
  omap (fun coin_id => ticker_dict !! coin_id) coins.

(** What the categories named [n] contribute, in category order. *)
Definition contributions (category_coins : odict (list string))
  (ticker_dict : gmap string string) (n : string) (cats : list category)
  : list string :=
  cats ≫= (fun cat =>
             if decide (cat_name cat = n)
             then resolved_tickers ticker_dict
                    (default [] (od_get (cat_id cat) category_coins))
             else []).

(** ** Index strings *)

(** The decimal rendering an f-string gives a non-negative [int]. *)
Definition str_of_nat (n : nat) : string :=
  NilEmpty.string_of_uint (Nat.to_uint n).

Definition index_string (tickers : list string) : string :=
  "(" ++ String.concat "*" (take 10 tickers)
      ++ ")^(1/" ++ str_of_nat (length (take 10 tickers)) ++ ")".

Definition create_tradingview_index_string
  (categorized : odict (list string)) : odict string :=
  od_of_pairs ((fun kv => (fst kv, index_string (snd kv))) <$> categorized).


(** ** Strings as Python sees them

    HTTP header text reaches the program decoded as Latin-1, one character per
    byte, so a [string] of 8-bit characters is the header itself. *)

Definition newline : ascii := "010"%char.
Definition dquote : ascii := "034"%char.
Definition comma : ascii := ","%char.

(** [s.split(sep)] for a one-character separator: always at least one piece. *)
Fixpoint split_on (sep : ascii) (s : string) : list string :=
  match s with
  | EmptyString => [EmptyString]
  | String c s' =>
      if Ascii.eqb c sep then EmptyString :: split_on sep s'
      else match split_on sep s' with
           | [] => [String c EmptyString]
           | piece :: pieces => String c piece :: pieces
           end
  end.

Fixpoint has_char (c : ascii) (s : string) : bool :=
  match s with
  | EmptyString => false
  | String c' s' => Ascii.eqb c' c || has_char c s'
  end.

(** ** The fragment of [re] that [link_pattern] uses

    Literal characters, greedy repetition of a one-character class, and
    capturing groups, matched by backtracking in [re]'s priority order. *)

Inductive charclass : Type :=
| NotChar (c : ascii)       (* [^c] *)
| Whitespace.               (* \s   *)

(** [\s] on [str] patterns, restricted to the Latin-1 range. *)
Definition is_space (c : ascii) : bool :=
  let n := nat_of_ascii c in
  ((9 <=? n)%nat && (n <=? 13)%nat) || ((28 <=? n)%nat && (n <=? 32)%nat)
  || (n =? 133)%nat || (n =? 160)%nat.

Definition in_class (cs : charclass) (c : ascii) : bool :=
  match cs with
  | NotChar c' => negb (Ascii.eqb c c')
  | Whitespace => is_space c
  end.

Inductive atom : Type :=
| Lit (c : ascii)
| Rep (min : nat) (cs : charclass)     (* cs{min,}, greedy *)
| GroupOpen
| GroupClose.

(** Finished groups in order, and the text of the group being read. *)
Record captures : Type :=
  { closed : list string; opened : option string }.

Definition cap_char (c : ascii) (cap : captures) : captures :=
  {| closed := closed cap;
     opened := (fun g => g ++ String c EmptyString) <$> opened cap |}.

Definition cap_open (cap : captures) : captures :=
  {| closed := closed cap; opened := Some EmptyString |}.

Definition cap_close (cap : captures) : captures :=
  {| closed := (closed cap ++ [default EmptyString (opened cap)])%list;
     opened := None |}.

(** Greedy repetition: take one more character of the class if the rest of
    the pattern, [k], can still match afterwards; otherwise stop here, which
    needs [min] characters taken. [n] counts those taken so far. *)
Fixpoint match_rep (k : string -> captures -> option captures)
  (min : nat) (cs : charclass) (n : nat) (s : string) (cap : captures)
  : option captures :=
  let stop := if (min <=? n)%nat then k s cap else None in
  match s with
  | String c s' =>
      if in_class cs c then
        match match_rep k min cs (S n) s' (cap_char c cap) with
        | Some r => Some r
        | None => stop
        end
      else stop
  | EmptyString => stop
  end.

Fixpoint match_here (p : list atom) (s : string) (cap : captures)
  : option captures :=
  match p with
  | [] => Some cap
  | Lit c :: p' =>
      match s with
      | String c' s' =>
          if Ascii.eqb c' c then match_here p' s' (cap_char c' cap) else None
      | EmptyString => None
      end
  | Rep min cs :: p' => match_rep (match_here p') min cs 0 s cap
  | GroupOpen :: p' => match_here p' s (cap_open cap)
  | GroupClose :: p' => match_here p' s (cap_close cap)
  end.

(** [pattern.search(s)]: the leftmost position where the pattern matches;
    the value is the list of groups 1, 2, ... *)
Fixpoint re_search (p : list atom) (s : string) : option (list string) :=
  match match_here p s {| closed := []; opened := None |} with
  | Some cap => Some (closed cap)
  | None =>
      match s with
      | EmptyString => None
      | String _ s' => re_search p s'
      end
  end.

(** [match.group(n)] for n >= 1. *)
Definition group (m : list string) (n : nat) : result string :=
  match m !! (n - 1) with
  | Some g => Ok g
  | None => Raise IndexError
  end.

(** The compiled pattern [<([^>]+)>;\s*rel=Q([^Q]+)Q], Q the double quote. *)
Definition link_pattern : list atom :=
  [Lit "<"; GroupOpen; Rep 1 (NotChar ">"); GroupClose; Lit ">"; Lit ";";
   Rep 0 Whitespace; Lit "r"; Lit "e"; Lit "l"; Lit "="; Lit dquote;
   GroupOpen; Rep 1 (NotChar dquote); GroupClose; Lit dquote].

(** The loop of [parse_link_header] over the comma-separated pieces. *)
Fixpoint parse_links (entries : list string) (links : gmap string string)
  : result (gmap string string) :=
  match entries with
  | [] => Ok links
  | link :: rest =>
      match re_search link_pattern link with
      | Some m =>
          rbind (group m 1) (fun url =>
          rbind (group m 2) (fun rel =>
          parse_links rest (<[rel := url]> links)))
      | None => parse_links rest links
      end
  end.

Definition parse_link_header (link_header : string)
  : result (gmap string string) :=
  parse_links (split_on comma link_header) ∅.

(** Number of groups a pattern closes. *)
Fixpoint count_close (p : list atom) : nat :=
  match p with
  | [] => 0
  | GroupClose :: p' => S (count_close p')
  | _ :: p' => count_close p'
  end.

(** The captures after reading the characters of [x]. *)
Definition cap_chars (x : string) (cap : captures) : captures :=
  {| closed := closed cap; opened := (fun g => g ++ x) <$> opened cap |}.

(** An entry of the shape [<URL>; rel=QRELQ]: text without [<], then the
    URL between angle brackets, a semicolon, optional white space, and the
    quoted relation; anything may follow. *)
Definition link_entry (entry url rel : string) : Prop :=
  exists pre ws post,
    entry = pre ++ "<" ++ url ++ ">;" ++ ws ++ "rel="
                ++ String dquote (rel ++ String dquote post)
    /\ has_char "<" pre = false
    /\ url <> EmptyString /\ has_char ">" url = false
    /\ (forall c, has_char c ws = true -> is_space c = true)
    /\ rel <> EmptyString /\ has_char dquote rel = false.

(** [entries] has an entry that the pattern finds with groups [url] and
    [rel], and no later entry is found with the same [rel]. *)
Definition last_match (entries : list string) (rel url : string) : Prop :=
  exists before entry after,
    entries = (before ++ entry :: after)%list
    /\ re_search link_pattern entry = Some [url; rel]
    /\ forall e u, e ∈ after -> re_search link_pattern e <> Some [u; rel].

(** The header of the specification's example. *)
Definition example_link_header : string :=
  "<https://x/y?page=2>; rel=" ++ String dquote "next" ++ String dquote
  (", <https://x/y?page=9>; rel=" ++ String dquote "last"
   ++ String dquote EmptyString).

(** ** The watchlist writer *)

Definition slash : ascii := "/"%char.
Definition nl : string := String newline EmptyString.

(** [p[:p.rfind('/') + 1]] *)
Fixpoint path_head (p : string) : string :=
  match p with
  | EmptyString => EmptyString
  | String c p' =>
      match path_head p' with
      | EmptyString =>
          if Ascii.eqb c slash then String c EmptyString else EmptyString
      | String _ _ as h => String c h
      end
  end.

(** [s.rstrip('/')] *)
Fixpoint rstrip_slash (s : string) : string :=
  match s with
  | EmptyString => EmptyString
  | String c s' =>
      match rstrip_slash s' with
      | EmptyString =>
          if Ascii.eqb c slash then EmptyString else String c EmptyString
      | String _ _ as t => String c t
      end
  end.

Fixpoint all_slashes (s : string) : bool :=
  match s with
  | EmptyString => true
  | String c s' => Ascii.eqb c slash && all_slashes s'
  end.

(** [os.path.dirname] on POSIX paths. *)
Definition dirname (p : string) : string :=
  let head := path_head p in
  if negb (String.eqb head EmptyString) && negb (all_slashes head)
  then rstrip_slash head else head.

(** Directories and the text of the regular files.  Permissions and other
    operating-system failures are outside the model: creating a directory and
    opening a file for writing succeed. *)
Record FileSystem : Type :=
  { fs_dirs : gset string; fs_files : gmap string string }.

Definition path_exists (p : string) (fs : FileSystem) : bool :=
  bool_decide (p ∈ fs_dirs fs) || bool_decide (is_Some (fs_files fs !! p)).

Definition makedirs (d : string) (fs : FileSystem) : FileSystem :=
  {| fs_dirs := {[d]} ∪ fs_dirs fs; fs_files := fs_files fs |}.

Definition empty_fs : FileSystem := {| fs_dirs := ∅; fs_files := ∅ |}.

(** What a category maps to: the index string when [is_index], the ticker
    list otherwise (the two shapes [main] passes). *)
Definition payload (is_index : bool) : Type :=
  if is_index then string else list string.

(** A file opened with mode ['w'] is its text so far; [file.write(s)]
    appends. *)
Definition file_write (s : string) (file : string) : string := file ++ s.

(** [for ticker in data: file.write(f"{ticker}\n")] *)
Fixpoint write_tickers (data : list string) (file : string) : string :=
  match data with
  | [] => file
  | ticker :: rest => write_tickers rest (file_write (ticker ++ nl) file)
  end.

Definition write_data (is_index : bool) : payload is_index -> string -> string :=
  match is_index with
  | true => fun data file => file_write (data ++ nl ++ nl) file
  | false => fun data file => write_tickers data file
  end.

(** [for category_name, data in categorized_data.items(): ...] *)
Fixpoint write_categories (is_index : bool)
  (items : odict (payload is_index)) (file : string) : string :=
  match items with
  | [] => file
  | (category_name, data) :: rest =>
      write_categories is_index rest
        (write_data is_index data
           (file_write ("###" ++ category_name ++ nl) file))
  end.

Definition save_to_tradingview_watchlist (filename : string)
  (is_index : bool) (categorized_data : odict (payload is_index))
  (fs : FileSystem) : FileSystem :=
  let directory := dirname filename in
  let fs1 :=
    if negb (path_exists directory fs)
       && negb (String.eqb directory EmptyString)
    then makedirs directory fs else fs in
  {| fs_dirs := fs_dirs fs1;
     fs_files :=
       <[filename := write_categories is_index categorized_data EmptyString]>
         (fs_files fs1) |}.

(** The lines the format prescribes: a header per category, then its index
    string and an empty line, or its tickers. *)
Definition data_lines (is_index : bool) : payload is_index -> list string :=
  match is_index with
  | true => fun data => [data; EmptyString]
  | false => fun data => data
  end.

Definition watchlist_lines (is_index : bool)
  (categorized_data : odict (payload is_index)) : list string :=
  categorized_data
    ≫= (fun kv => ("###" ++ fst kv) :: data_lines is_index (snd kv)).

(** The text of a file made of these lines, each ended by a newline. *)
Fixpoint unlines (ls : list string) : string :=
  match ls with
  | [] => EmptyString
  | l :: ls' => l ++ nl ++ unlines ls'
  end.

Definition carriage_return : ascii := "013"%char.

(** What reading in text mode does to the stored text: with the default
    [newline=None] the line endings CR LF and CR both come back as LF.
    (Writing in text mode leaves LF as it is where the line separator is
    LF, as on the POSIX systems of [dirname].) *)
Fixpoint universal_newlines (s : string) : string :=
  match s with
  | EmptyString => EmptyString
  | String c s' =>
      if Ascii.eqb c carriage_return then
        match s' with
        | String c' s'' =>
            if Ascii.eqb c' newline
            then String newline (universal_newlines s'')
            else String newline (universal_newlines s')
        | EmptyString => String newline EmptyString
        end
      else String c (universal_newlines s')
  end.

(** Reading a file back line by line:
    [open(filename).read().split('\n')]. *)
Definition read_lines (filename : string) (fs : FileSystem)
  : option (list string) :=
  (fun text => split_on newline (universal_newlines text))
    <$> fs_files fs !! filename.

(** ** The world the program runs in

    The monotonic clock (fractional seconds, as rationals), the one
    [RateLimiter] instance that [main] creates and hands to every call, the
    remote API as the outcome that the n-th GET meets together with the time
    it takes, and the trace of the GETs and sleeps performed so far. *)

Definition Qltb (x y : Q) : bool := negb (Qle_bool y x).

Record RateLimiter : Type :=
  { requests : list Q; max_requests : Z; period : Q }.

Record coin : Type := { c_id : string }.
Record ticker : Type :=
  { t_coin_id : string; t_base : string; t_target : string }.

(** Decoded response bodies, by endpoint; [JNull] is JSON [null]. *)
Inductive json : Type :=
| JNull
| JCategories (l : list category)
| JMarkets (l : list coin)
| JTickers (tickers : list ticker).

Inductive pval : Type :=
| PStr (s : string)
| PInt (n : Z).

(** What [requests.get] meets: a response with its status, its body if it
    decodes as JSON, and its headers; or no response at all. *)
Inductive http_reply : Type :=
| Response (status_code : Z) (body : option json)
           (headers : gmap string string)
| ConnectionFailed.

Inductive event : Type :=
| EvGet (url : string) (params : option (odict pval))
| EvSleep (seconds : Q).

Record World : Type :=
  { clock : Q;
    limiter : RateLimiter;
    network : nat -> Q * http_reply;
    n_get : nat;
    trace : list event }.

(** ** A state-and-exception monad over the world; [Diverge] is a run that
    has not finished within the fuel it was given. *)

Inductive res (A : Type) : Type :=
| Ret (a : A)
| Exc (e : exn)
| Diverge.
Arguments Ret {A} a.
Arguments Exc {A} e.
Arguments Diverge {A}.

Definition M (A : Type) : Type := World -> res A * World.

Definition ret {A} (a : A) : M A := fun w => (Ret a, w).
Definition raise {A} (e : exn) : M A := fun w => (Exc e, w).
Definition diverge {A} : M A := fun w => (Diverge, w).

Definition bind {A B} (m : M A) (k : A -> M B) : M B :=
  fun w =>
    match m w with
    | (Ret a, w') => k a w'
    | (Exc e, w') => (Exc e, w')
    | (Diverge, w') => (Diverge, w')
    end.

Notation "'let!' x ':=' m 'in' k" := (bind m (fun x => k))
  (at level 10, x name, m at level 100, k at level 200, only parsing).
Notation "'let!' ' pat ':=' m 'in' k" :=
  (bind m (fun x => match x with pat => k end))
  (at level 10, pat pattern, m at level 100, k at level 200, only parsing).

Definition lift {A} (r : result A) : M A :=
  match r with
  | Ok a => ret a
  | Raise e => raise e
  end.

(** [time.monotonic()] *)
Definition monotonic : M Q := fun w => (Ret (clock w), w).

(** [time.sleep(seconds)]: refuses a negative length, otherwise the clock
    moves on by that much. *)
Definition sleep (seconds : Q) : M unit :=
  fun w =>
    if Qltb seconds 0 then (Exc ValueError, w)
    else (Ret tt,
          {| clock := clock w + seconds; limiter := limiter w;
             network := network w; n_get := n_get w;
             trace := (trace w ++ [EvSleep seconds])%list |}).

(** Time that passes in the caller between two calls. *)
Definition elapse (seconds : Q) : M unit :=
  fun w =>
    (Ret tt,
     {| clock := clock w + seconds; limiter := limiter w;
        network := network w; n_get := n_get w; trace := trace w |}).

Definition get_limiter : M RateLimiter := fun w => (Ret (limiter w), w).

Definition set_requests (rs : list Q) : M unit :=
  fun w =>
    (Ret tt,
     {| clock := clock w;
        limiter := {| requests := rs;
                      max_requests := max_requests (limiter w);
                      period := period (limiter w) |};
        network := network w; n_get := n_get w; trace := trace w |}).

(** ** RateLimiter *)

(** [while self.requests and self.requests[0] < current_time - self.period:
     self.requests.popleft()] *)
Fixpoint prune (current_time period : Q) (rs : list Q) : list Q :=
  match rs with
  | [] => []
  | r0 :: rest =>
      if Qltb r0 (current_time - period) then prune current_time period rest
      else rs
  end.

Definition wait : M unit :=
  let! current_time := monotonic in
  let! rl := get_limiter in
  let rs := prune current_time (period rl) (requests rl) in
  let! _ := set_requests rs in
  let! _ := (if (Z.of_nat (length rs) >=? max_requests rl)%Z then
               match rs with
               | [] => raise IndexError
               | r0 :: _ => sleep (r0 + period rl - current_time)
               end
             else ret tt) in
  let! now := monotonic in
  set_requests (rs ++ [now])%list.

(** ** The request wrapper *)

(** [requests.get(url, headers=HEADERS, params=params)] *)
Definition requests_get (url : string) (params : option (odict pval))
  : M http_reply :=
  fun w =>
    let '(took, reply) := network w (n_get w) in
    (Ret reply,
     {| clock := clock w + took; limiter := limiter w;
        network := network w; n_get := S (n_get w);
        trace := (trace w ++ [EvGet url params])%list |}).

(** [Response.raise_for_status] raises [HTTPError] for the client and server
    error statuses, 400 to 599, and for no other. *)
Definition is_error_status (status_code : Z) : bool :=
  ((400 <=? status_code) && (status_code <? 600))%Z.

(** The value is the pair [(body, headers)]; a component is [None] where
    Python's is.  A body that does not decode makes [response.json()] raise
    a [RequestException], which the second handler turns into the sentinel. *)
Fixpoint safe_request (fuel : nat) (url : string)
  (params : option (odict pval))
  : M (option json * option (gmap string string)) :=
  match fuel with
  | O => diverge
  | S fuel' =>
      let! _ := wait in
      let! reply := requests_get url params in
      match reply with
      | Response status_code body headers =>
          if is_error_status status_code then
            if (status_code =? 429)%Z then
              let! _ := sleep 10 in
              safe_request fuel' url params
            else raise (HTTPError status_code)
          else
            match body with
            | Some j => ret (Some j, Some headers)
            | None => ret (None, None)
            end
      | ConnectionFailed => ret (None, None)
      end
  end.

Definition nonempty {A} (l : list A) : bool :=
  match l with
  | [] => false
  | _ :: _ => true
  end.

(** Truth value of a returned body in [if response:]: [None] and empty
    lists are false; the tickers body is a dictionary with a key. *)
Definition truthy (response : option json) : bool :=
  match response with
  | None | Some JNull => false
  | Some (JCategories l) => nonempty l
  | Some (JMarkets l) => nonempty l
  | Some (JTickers _) => true
  end.

(** ** The fetchers *)

Definition BASE_URL : string := "https://api.coingecko.com/api/v3".

(** [l[:k]] for an [int] k of either sign. *)
Definition py_slice_to {A} (k : Z) (l : list A) : list A :=
  if (0 <=? k)%Z then take (Z.to_nat k) l
  else take (length l - Z.to_nat (- k)) l.

Definition categories_url : string :=
  BASE_URL ++ "/coins/categories?order=market_cap_desc".

(** A body of another shape than the endpoint's stands for the [TypeError]
    or [KeyError] that indexing it would raise. *)
Definition fetch_categories (fuel : nat) (limit : Z) : M (list category) :=
  let! '(categories, _) := safe_request fuel categories_url None in
  if truthy categories then
    match categories with
    | Some (JCategories l) => ret (py_slice_to limit l)
    | _ => raise TypeError
    end
  else ret [].

Definition markets_url : string := BASE_URL ++ "/coins/markets".

Definition per_page : Z := 250.

(** The [params] dictionary when its ['page'] entry is [page]. *)
Definition coin_params (category_id : string) (page : Z) : odict pval :=
  [("vs_currency", PStr "usd"); ("category", PStr category_id);
   ("order", PStr "market_cap_desc"); ("per_page", PInt per_page);
   ("page", PInt page)].

(** The [while] loop of [fetch_coins_by_category]; its state is [coins],
    [has_more_data] and [params['page']]. *)
Fixpoint fetch_coins_loop (fuel : nat) (category_id : string)
  (max_coins : Z) (page : Z) (has_more_data : bool) (coins : list string)
  : M (list string) :=
  match fuel with
  | O => diverge
  | S fuel' =>
      if has_more_data && (Z.of_nat (length coins) <? max_coins)%Z then
        let! '(response, _) :=
          safe_request fuel' markets_url
            (Some (coin_params category_id page)) in
        if truthy response then
          match response with
          | Some (JMarkets l) =>
              let new_coins := c_id <$> l in
              let coins :=
                (coins ++ py_slice_to
                            (max_coins - Z.of_nat (length coins)) new_coins)%list in
              if (Z.of_nat (length coins) >=? max_coins)%Z
                 || (Z.of_nat (length new_coins) <? per_page)%Z
              then fetch_coins_loop fuel' category_id max_coins page false coins
              else fetch_coins_loop fuel' category_id max_coins (page + 1)
                     true coins
          | _ => raise TypeError
          end
        else fetch_coins_loop fuel' category_id max_coins page false coins
      else ret coins
  end.

Definition fetch_coins_by_category (fuel : nat)
  (category_id category_name : string) (max_coins : Z) : M (list string) :=
  fetch_coins_loop fuel category_id max_coins 1 true [].

Record target_coin : Type := { target_id : string; target_symbol : string }.

Section TickerFetcher.

(** [urllib.parse] is taken as given: the query of a URL as a dictionary,
    [dict(parse_qsl(urlparse(u).query))], and the URL without its query,
    [urlunparse(urlparse(u)._replace(query=None))]. *)
Variable url_query : string -> odict pval.
Variable url_without_query : string -> string.

Definition update_request_url (next_url : string)
  : string * option (odict pval) :=
  (url_without_query next_url, Some (url_query next_url)).

(** The [while True] loop of [fetch_tickers_for_exchange]; its state is
    [url], [params] and [tickers]. *)
Fixpoint fetch_tickers_loop (fuel : nat) (target : target_coin)
  (url : string) (params : option (odict pval)) (tickers : list ticker)
  : M (list ticker) :=
  match fuel with
  | O => diverge
  | S fuel' =>
      let! '(response, headers) := safe_request fuel' url params in
      if truthy response then
        match response, headers with
        | Some (JTickers ts), Some hs =>
            let tickers :=
              (tickers ++ filter (fun t => t_target t = target_symbol target) ts)%list in
            let! links :=
              lift (parse_link_header (default EmptyString (hs !! "Link"))) in
            match links !! "next" with
            | Some next_url =>
                let '(url, params) := update_request_url next_url in
                fetch_tickers_loop fuel' target url params tickers
            | None => ret tickers
            end
        | _, _ => raise TypeError
        end
      else ret tickers
  end.

Definition fetch_tickers_for_exchange (fuel : nat)
  (exchange_id exchange_name : string) (target : target_coin)
  : M (list ticker) :=
  fetch_tickers_loop fuel target
    (BASE_URL ++ "/exchanges/" ++ exchange_id ++ "/tickers")
    (Some [("coin_ids", PStr (target_id target)); ("page", PInt 1)]) [].

End TickerFetcher.

(** The limiter [main] creates: [RateLimiter(max_requests=1, period=2)]. *)
Definition main_rate_limiter : RateLimiter :=
  {| requests := []; max_requests := 1; period := 2 |}.

(** ** Pages, as the markets endpoint serves them *)

(** What a request for a page meets: a 200 response whose body lists
    the coins [l]; no response, the request failing on the network; or a
    response with an HTTP error status other than 429. *)
Inductive page : Type :=
| Listed (l : list coin)
| NoResponse
| ErrorStatus (status : Z).

(** [pages i] is what the i-th request from now on meets. *)
Definition serves (w : World) (pages : nat -> page) : Prop :=
  forall i,
    match pages i with
    | Listed l =>
        exists h,
          snd (network w (n_get w + i)) = Response 200 (Some (JMarkets l)) h
    | NoResponse => snd (network w (n_get w + i)) = ConnectionFailed
    | ErrorStatus s =>
        ((400 <= s < 600)%Z /\ s <> 429%Z)
        /\ exists body h,
             snd (network w (n_get w + i)) = Response s body h
    end.

(** The coin ids that a page lists. *)
Definition listed_ids (p : page) : list string :=
  match p with
  | Listed l => c_id <$> l
  | NoResponse | ErrorStatus _ => []
  end.

(** The coin ids of the first [k] pages, in order. *)
Fixpoint page_ids (pages : nat -> page) (k : nat) : list string :=
  match k with
  | O => []
  | S k' =>
      (listed_ids (pages O) ++ page_ids (fun i => pages (S i)) k')%list
  end.

(** The error status that ended a walk of [k] requests, if one did: that
    of the last page requested. *)
Definition stopped_by_error (pages : nat -> page) (k : nat) : option Z :=
  match k with
  | O => None
  | S j =>
      match pages j with
      | ErrorStatus s => Some s
      | Listed _ | NoResponse => None
      end
  end.

(** The requests for [k] consecutive pages starting at [page]. *)
Fixpoint page_requests (category_id : string) (page : Z) (k : nat)
  : list (string * option (odict pval)) :=
  match k with
  | O => []
  | S k' =>
      (markets_url, Some (coin_params category_id page))
      :: page_requests category_id (page + 1) k'
  end.

(** A network that serves [pages], each reply taking [took] seconds. *)
Definition network_of_pages (took : Q) (pages : nat -> page)
  (n : nat) : Q * http_reply :=
  (took,
   match pages n with
   | Listed l => Response 200 (Some (JMarkets l)) ∅
   | NoResponse => ConnectionFailed
   | ErrorStatus s => Response s None ∅
   end).

(** The world at the start of [main], facing a given network. *)
Definition initial_world (net : nat -> Q * http_reply) : World :=
  {| clock := 0; limiter := main_rate_limiter; network := net;
     n_get := 0; trace := [] |}.

(** ** Observations on a world *)

(** The GETs of a trace, in order. *)
Definition gets (tr : list event)
  : list (string * option (odict pval)) :=
  omap (fun e => match e with
                 | EvGet url params => Some (url, params)
                 | EvSleep _ => None
                 end) tr.

(** [w'] is [w] after the rate limiter has let one call through: the
    limiter may have slept once ([limiter_sleep]), nothing was sent. *)
Definition limiter_sleep (es : list event) : Prop :=
  es = [] \/ exists d, es = [EvSleep d].

Definition waited (w w' : World) : Prop :=
  network w' = network w /\ n_get w' = n_get w
  /\ max_requests (limiter w') = max_requests (limiter w)
  /\ period (limiter w') = period (limiter w)
  /\ exists es, limiter_sleep es /\ trace w' = (trace w ++ es)%list.

(** [w'] is [w] after one GET of [url] with [params] went out behind the
    rate limiter. *)
Definition attempted (url : string) (params : option (odict pval))
  (w w' : World) : Prop :=
  exists w1,
    waited w w1
    /\ w' = {| clock := clock w1 + fst (network w1 (n_get w1));
               limiter := limiter w1; network := network w1;
               n_get := S (n_get w1);
               trace := (trace w1 ++ [EvGet url params])%list |}.

(** Recorded timestamps in the trailing window [(t - period, t]]. *)
Definition in_window (period t : Q) (rs : list Q) : list Q :=
  filter (fun r => Qltb (t - period) r && Qle_bool r t) rs.

(** Timestamps in non-decreasing order. *)
Fixpoint ascending (l : list Q) : Prop :=
  match l with
  | [] => True
  | x :: l' => Forall (fun y => (x <= y)%Q) l' /\ ascending l'
  end.

(** What holds between two calls of [wait()] when [old] are the
    timestamps the queue has dropped and [hist] all those recorded so far:
    the queue is the recent end of the history, the dropped ones are older
    than the period, nothing is recorded in the future, and no trailing
    window, now or at a recorded time, holds more than [max_requests]. *)
Definition limiter_inv (w : World) (old hist : list Q) : Prop :=
  hist = (old ++ requests (limiter w))%list
  /\ ascending hist
  /\ Forall (fun x => (x < clock w - period (limiter w))%Q) old
  /\ Forall (fun x => (x <= clock w)%Q) hist
  /\ (Z.of_nat (length (in_window (period (limiter w)) (clock w) hist))
      <= max_requests (limiter w))%Z
  /\ Forall (fun t =>
               (Z.of_nat (length (in_window (period (limiter w)) t hist))
                <= max_requests (limiter w))%Z) hist.

(** A caller that calls [wait()] again and again; [gaps] is the time that
    passes before each call.  The value is the list of the timestamps the
    calls recorded, each read off the end of the queue after its call. *)
Fixpoint wait_calls (gaps : list Q) : M (list Q) :=
  match gaps with
  | [] => ret []
  | gap :: rest =>
      let! _ := elapse gap in
      let! _ := wait in
      let! rl := get_limiter in
      let! stamps := wait_calls rest in
      ret (option_list (last (requests rl)) ++ stamps)%list
  end.

(** * Properties *)

(** ** Strings *)

Lemma str_app_cons (c : ascii) (s t : string) :
  String c s ++ t = String c (s ++ t).
Proof. reflexivity. Qed.

Lemma str_app_nil_r (s : string) : s ++ EmptyString = s.
Proof. induction s as [|c s IH]; [done|]. by rewrite str_app_cons, IH. Qed.

Lemma str_app_assoc (s t u : string) : (s ++ t) ++ u = s ++ t ++ u.
Proof.
  induction s as [|c s IH]; [done|]. by rewrite !str_app_cons, IH.
Qed.

(** ** Ordered dictionaries *)

Lemma od_get_set_eq {V} (k : string) (v : V) (d : odict V) :
  od_get k (od_set k v d) = Some v.
Proof.
  induction d as [|[k' v'] d IH]; simpl.
  - by rewrite String.eqb_refl.
  - destruct (String.eqb k' k) eqn:E; simpl; rewrite E; auto.
Qed.

Lemma od_get_set_ne {V} (k k' : string) (v : V) (d : odict V) :
  k <> k' -> od_get k' (od_set k v d) = od_get k' d.
Proof.
  intros Hne. induction d as [|[k0 v0] d IH]; simpl.
  - destruct (String.eqb_spec k k'); congruence.
  - destruct (String.eqb_spec k0 k) as [->|]; simpl.
    + destruct (String.eqb_spec k k'); congruence.
    + destruct (String.eqb_spec k0 k'); auto.
Qed.

Lemma od_get_Some_key {V} (k : string) (v : V) (d : odict V) :
  od_get k d = Some v -> k ∈ od_keys d.
Proof.
  induction d as [|[k' v'] d IH]; simpl; [done|].
  destruct (String.eqb_spec k' k) as [->|]; intros H.
  - left.
  - right. auto.
Qed.

Lemma od_key_get {V} (k : string) (d : odict V) :
  k ∈ od_keys d -> is_Some (od_get k d).
Proof.
  induction d as [|[k' v'] d IH]; simpl.
  - intros H. inversion H.
  - intros H. destruct (String.eqb_spec k' k) as [->|Hne]; [eauto|].
    apply IH. inversion H; subst; [congruence|done].
Qed.

Lemma od_get_None_key {V} (k : string) (d : odict V) :
  od_get k d = None -> k ∉ od_keys d.
Proof.
  intros H Hin. apply od_key_get in Hin. rewrite H in Hin.
  by destruct Hin.
Qed.

Lemma od_set_fresh {V} (k : string) (v : V) (d : odict V) :
  k ∉ od_keys d -> od_set k v d = (d ++ [(k, v)])%list.
Proof.
  induction d as [|[k' v'] d IH]; simpl; [done|].
  intros Hnin. apply not_elem_of_cons in Hnin as [Hne Hnin].
  destruct (String.eqb_spec k' k); [congruence|]. by rewrite IH.
Qed.

Lemma od_keys_set_present {V} (k : string) (v : V) (d : odict V) :
  k ∈ od_keys d -> od_keys (od_set k v d) = od_keys d.
Proof.
  induction d as [|[k' v'] d IH]; simpl.
  - intros H. inversion H.
  - intros H. destruct (String.eqb_spec k' k) as [->|Hne]; simpl; [done|].
    f_equal. apply IH. inversion H; subst; [congruence|done].
Qed.

Lemma od_get_In {V} (k : string) (v : V) (d : odict V) :
  od_wf d -> (k, v) ∈ d -> od_get k d = Some v.
Proof.
  unfold od_wf. induction d as [|[k' v'] d IH]; simpl.
  - intros _ H. inversion H.
  - intros Hnd Hin. apply NoDup_cons in Hnd as [Hk Hnd].
    apply elem_of_cons in Hin as [Heq|Hin].
    + inversion Heq; subst. by rewrite String.eqb_refl.
    + destruct (String.eqb_spec k' k) as [->|]; [|auto].
      exfalso. apply Hk. by apply (list_elem_of_fmap_2' fst _ (k, v)).
Qed.

(** Two dictionaries with the same keys in the same order and the same
    values are the same. *)
Lemma od_ext {V} (d1 d2 : odict V) :
  od_wf d1 -> od_keys d1 = od_keys d2 ->
  (forall k, k ∈ od_keys d1 -> od_get k d1 = od_get k d2) -> d1 = d2.
Proof.
  unfold od_wf. revert d2.
  induction d1 as [|[k v] d1 IH]; intros [|[k2 v2] d2]; simpl; try done.
  intros Hnd Hk Hget. injection Hk as -> Hk.
  apply NoDup_cons in Hnd as [Hnin Hnd].
  pose proof (Hget k2 ltac:(left)) as H0. rewrite String.eqb_refl in H0.
  injection H0 as ->. f_equal. apply IH; [done..|].
  intros k Hin. specialize (Hget k ltac:(by right)).
  destruct (String.eqb_spec k2 k) as [->|]; [done|exact Hget].
Qed.

(** Assigning the items of a dictionary in order rebuilds it. *)
Lemma od_of_pairs_app {V} (l acc : odict V) :
  od_wf (acc ++ l)%list ->
  foldl (fun d kv => od_set (fst kv) (snd kv) d) acc l = (acc ++ l)%list.
Proof.
  unfold od_wf, od_keys. revert acc.
  induction l as [|[k v] l IH]; intros acc Hnd; simpl.
  - by rewrite app_nil_r.
  - rewrite od_set_fresh.
    + rewrite IH; rewrite <- app_assoc; done.
    + rewrite fmap_app in Hnd. apply NoDup_app in Hnd as (_ & Hd & _).
      intros Hin. apply (Hd k Hin). simpl. left.
Qed.

Lemma od_of_pairs_wf {V} (d : odict V) : od_wf d -> od_of_pairs d = d.
Proof. intros H. unfold od_of_pairs. by rewrite od_of_pairs_app. Qed.

(** ** Index strings *)

Lemma create_tradingview_index_string_map (d : odict (list string)) :
  od_wf d ->
  create_tradingview_index_string d
  = (fun kv => (fst kv, index_string (snd kv))) <$> d.
Proof.
  intros Hwf. unfold create_tradingview_index_string.
  apply od_of_pairs_wf. unfold od_wf, od_keys.
  rewrite <- list_fmap_compose. exact Hwf.
Qed.

Lemma od_get_map_values {V W} (f : V -> W) (k : string) (d : odict V) :
  od_get k ((fun kv => (fst kv, f (snd kv))) <$> d) = f <$> od_get k d.
Proof.
  induction d as [|[k' v'] d IH]; simpl; [done|].
  destruct (String.eqb k' k); done.
Qed.

Lemma index_string_min (tickers : list string) :
  index_string tickers
  = "(" ++ String.concat "*" (take (10 `min` length tickers) tickers)
        ++ ")^(1/" ++ str_of_nat (10 `min` length tickers) ++ ")".
Proof.
  unfold index_string. rewrite length_take.
  destruct (Nat.le_gt_cases (length tickers) 10) as [Hle|Hgt].
  - rewrite Nat.min_r by done. by rewrite (take_ge tickers 10), firstn_all.
  - rewrite Nat.min_l by lia. done.
Qed.

(** C2: every category is mapped to "(" + the first min(10, length) tickers
    joined with "*" + ")^(1/N)", N = min(10, length); [A,B,C] gives
    (A*B*C)^(1/3), twelve tickers use the first ten and end in ^(1/10), and
    no ticker at all gives ()^(1/0). *)
Theorem create_tradingview_index_string_spec (d : odict (list string)) :
  od_wf d ->
  (forall category tickers,
      od_get category d = Some tickers ->
      od_get category (create_tradingview_index_string d)
      = Some ("(" ++ String.concat "*"
                       (take (10 `min` length tickers) tickers)
                  ++ ")^(1/" ++ str_of_nat (10 `min` length tickers) ++ ")"))
  /\ (forall A B C : string,
         index_string [A; B; C] = "(" ++ A ++ "*" ++ B ++ "*" ++ C ++ ")^(1/3)")
  /\ (forall tickers,
         length tickers = 12 ->
         index_string tickers
         = "(" ++ String.concat "*" (take 10 tickers) ++ ")^(1/10)")
  /\ index_string [] = "()^(1/0)".
Proof.
  intros Hwf. split; [|split; [|split]].
  - intros category tickers Hget.
    rewrite create_tradingview_index_string_map by done.
    rewrite od_get_map_values, Hget. simpl. by rewrite index_string_min.
  - intros A B C. unfold index_string. simpl.
    by rewrite !str_app_assoc.
  - intros tickers Hlen. unfold index_string.
    rewrite length_take, Hlen. reflexivity.
  - reflexivity.
Qed.

Lemma create_tradingview_index_string_spec_witness :
  od_wf [("AI", ["A"; "B"; "C"]); ("Gaming", [])]
  /\ od_get "AI" (create_tradingview_index_string
                    [("AI", ["A"; "B"; "C"]); ("Gaming", [])])
     = Some "(A*B*C)^(1/3)".
Proof.
  assert (Hwf : od_wf [("AI", ["A"; "B"; "C"]); ("Gaming", [])]).
  { unfold od_wf. simpl. apply (bool_decide_unpack _). vm_compute. exact I. }
  split; [exact Hwf|].
  exact (proj1 (create_tradingview_index_string_spec _ Hwf)
           "AI" ["A"; "B"; "C"] eq_refl).
Defined.

(** C10: the index mapping has exactly the keys of its input, in the same
    order; a category without tickers is kept and carries ()^(1/0). *)
Theorem create_tradingview_index_string_keys (d : odict (list string)) :
  od_wf d ->
  od_keys (create_tradingview_index_string d) = od_keys d
  /\ (forall category,
         od_get category d = Some [] ->
         od_get category (create_tradingview_index_string d)
         = Some "()^(1/0)").
Proof.
  intros Hwf. rewrite create_tradingview_index_string_map by done. split.
  - unfold od_keys. by rewrite <- list_fmap_compose.
  - intros category Hget. by rewrite od_get_map_values, Hget.
Qed.

Lemma create_tradingview_index_string_keys_witness :
  od_wf [("AI", ["A"; "B"; "C"]); ("Gaming", [])]
  /\ od_keys (create_tradingview_index_string
             [("AI", ["A"; "B"; "C"]); ("Gaming", [])])
  = ["AI"; "Gaming"]
  /\ od_get "Gaming" (create_tradingview_index_string
                        [("AI", ["A"; "B"; "C"]); ("Gaming", [])])
     = Some "()^(1/0)".
Proof.
  assert (Hwf : od_wf [("AI", ["A"; "B"; "C"]); ("Gaming", @nil string)]).
  { unfold od_wf. simpl. apply (bool_decide_unpack _). vm_compute. exact I. }
  destruct (create_tradingview_index_string_keys _ Hwf) as [Hk He].
  split; [exact Hwf | split; [exact Hk | apply He; reflexivity]].
Defined.

(** ** Aggregation *)

Lemma append_ticker_spec (name t : string) (ct : odict (list string)) :
  name ∈ od_keys ct ->
  exists ct',
    append_ticker name t ct = Ok ct'
    /\ od_keys ct' = od_keys ct
    /\ forall n, od_get n ct'
                 = if decide (n = name)
                   then (fun l => l ++ [t])%list <$> od_get n ct
                   else od_get n ct.
Proof.
  intros Hin. unfold append_ticker.
  destruct (od_key_get _ _ Hin) as [l Hl]. rewrite Hl.
  eexists. split; [done|]. split; [by apply od_keys_set_present|].
  intros n. destruct (decide (n = name)) as [->|Hne].
  - by rewrite od_get_set_eq, Hl.
  - by rewrite od_get_set_ne.
Qed.

Lemma append_category_tickers_spec (ticker_dict : gmap string string)
  (name : string) (coins : list string) (ct : odict (list string)) :
  name ∈ od_keys ct ->
  exists ct',
    append_category_tickers ticker_dict name coins ct = Ok ct'
    /\ od_keys ct' = od_keys ct
    /\ forall n, od_get n ct'
                 = if decide (n = name)
                   then (fun l => l ++ resolved_tickers ticker_dict coins)%list
                          <$> od_get n ct
                   else od_get n ct.
Proof.
  revert ct. induction coins as [|coin_id rest IH]; intros ct Hin; simpl.
  - exists ct. split; [done|]. split; [done|]. intros n.
    case_decide; [|done]. destruct (od_get n ct); simpl; [|done].
    by rewrite app_nil_r.
  - unfold resolved_tickers. simpl. destruct (ticker_dict !! coin_id) as [t|].
    + destruct (append_ticker_spec name t ct Hin) as (ct1 & -> & Hk1 & Hg1).
      simpl. destruct (IH ct1) as (ct2 & -> & Hk2 & Hg2); [by rewrite Hk1|].
      exists ct2. split; [done|]. split; [congruence|]. intros n.
      rewrite Hg2, Hg1. case_decide; [|done].
      destruct (od_get n ct); simpl; [|done].
      by rewrite <- app_assoc.
    + apply IH, Hin.
Qed.

Lemma contributions_cons (category_coins : odict (list string))
  (ticker_dict : gmap string string) (n : string) (cat : category)
  (rest : list category) :
  contributions category_coins ticker_dict n (cat :: rest)
  = ((if decide (cat_name cat = n)
      then resolved_tickers ticker_dict
             (default [] (od_get (cat_id cat) category_coins))
      else [])
     ++ contributions category_coins ticker_dict n rest)%list.
Proof. reflexivity. Qed.

Lemma categorize_loop_spec (category_coins : odict (list string))
  (ticker_dict : gmap string string) (cats : list category)
  (ct : odict (list string)) :
  (forall cat, cat ∈ cats -> is_Some (od_get (cat_id cat) category_coins)) ->
  (forall cat, cat ∈ cats -> cat_name cat ∈ od_keys ct) ->
  exists ct',
    categorize_loop category_coins ticker_dict cats ct = Ok ct'
    /\ od_keys ct' = od_keys ct
    /\ forall n, od_get n ct'
                 = (fun l => l ++ contributions category_coins ticker_dict n cats)%list
                     <$> od_get n ct.
Proof.
  revert ct.
  induction cats as [|cat rest IH]; intros ct Hids Hnames;
    cbn [categorize_loop].
  - exists ct. split; [done|]. split; [done|]. intros n.
    destruct (od_get n ct); simpl; [|done]. by rewrite app_nil_r.
  - destruct (Hids cat ltac:(left)) as [coins Hcoins]. rewrite Hcoins.
    destruct (append_category_tickers_spec ticker_dict (cat_name cat) coins ct)
      as (ct1 & -> & Hk1 & Hg1); [apply Hnames; left|].
    cbn [rbind]. destruct (IH ct1) as (ct2 & -> & Hk2 & Hg2).
    + intros c Hc. apply Hids. by right.
    + intros c Hc. rewrite Hk1. apply Hnames. by right.
    + exists ct2. split; [done|]. split; [congruence|]. intros n.
      rewrite Hg2, Hg1, contributions_cons, Hcoins. simpl.
      destruct (decide (n = cat_name cat)) as [->|Hne].
      * rewrite decide_True by done.
        destruct (od_get (cat_name cat) ct); simpl; [|done].
        by rewrite <- app_assoc.
      * rewrite decide_False by congruence. done.
Qed.

Lemma contributions_absent (category_coins : odict (list string))
  (ticker_dict : gmap string string) (n : string) (cats : list category) :
  n ∉ cat_name <$> cats ->
  contributions category_coins ticker_dict n cats = [].
Proof.
  induction cats as [|c rest IH]; [done|].
  rewrite fmap_cons, contributions_cons. intros Hn.
  apply not_elem_of_cons in Hn as [Hne Hn].
  rewrite decide_False by congruence. simpl. by apply IH.
Qed.

Lemma contributions_distinct (category_coins : odict (list string))
  (ticker_dict : gmap string string) (cats : list category) (cat : category) :
  NoDup (cat_name <$> cats) -> cat ∈ cats ->
  contributions category_coins ticker_dict (cat_name cat) cats
  = resolved_tickers ticker_dict
      (default [] (od_get (cat_id cat) category_coins)).
Proof.
  induction cats as [|c rest IH]; intros Hnd Hin.
  - inversion Hin.
  - rewrite fmap_cons in Hnd. apply NoDup_cons in Hnd as [Hc Hnd].
    rewrite contributions_cons.
    apply elem_of_cons in Hin as [->|Hin].
    + rewrite decide_True by done.
      rewrite (contributions_absent _ _ _ _ Hc). by rewrite app_nil_r.
    + rewrite decide_False; [simpl; by apply IH|].
      intros Heq. apply Hc. rewrite Heq.
      by apply list_elem_of_fmap_2.
Qed.

Lemma od_get_by_name {V} (g : category -> V) (cats : list category)
  (cat : category) :
  NoDup (cat_name <$> cats) -> cat ∈ cats ->
  od_get (cat_name cat) ((fun c => (cat_name c, g c)) <$> cats)
  = Some (g cat).
Proof.
  intros Hnd Hin. apply od_get_In.
  - unfold od_wf, od_keys. by rewrite <- list_fmap_compose.
  - by apply (list_elem_of_fmap_2 (fun c => (cat_name c, g c))).
Qed.

Lemma filter_all {A} (P : A -> Prop) `{!forall x, Decision (P x)}
  (l : list A) :
  Forall P l -> filter P l = l.
Proof.
  induction 1 as [|x l Hx Hl IH]; [done|].
  rewrite filter_cons_True by done. by f_equal.
Qed.

Lemma first_occurrences_elem (x : string) (l : list string) :
  x ∈ first_occurrences l <-> x ∈ l.
Proof.
  induction l as [|y l IH]; [done|]. cbn [first_occurrences].
  rewrite !elem_of_cons, list_elem_of_filter, IH.
  destruct (decide (x = y)) as [->|Hne]; [tauto|]. tauto.
Qed.

Lemma first_occurrences_NoDup (l : list string) :
  NoDup (first_occurrences l).
Proof.
  induction l as [|y l IH]; [constructor|]. cbn [first_occurrences].
  apply NoDup_cons. split.
  - rewrite list_elem_of_filter. intros [Hy _]. by apply Hy.
  - by apply NoDup_filter.
Qed.

Lemma first_occurrences_distinct (l : list string) :
  NoDup l -> first_occurrences l = l.
Proof.
  induction 1 as [|y l Hy Hl IH]; [done|]. cbn [first_occurrences].
  rewrite IH. f_equal. apply filter_all.
  apply Forall_forall. intros x Hx ->. done.
Qed.

(** The keys of a dict after further assignments: the keys it had, then
    the new ones in the order of their first assignment. *)
Lemma od_keys_assign {V} (l acc : odict V) :
  od_keys (foldl (fun d kv => od_set (fst kv) (snd kv) d) acc l)
  = (od_keys acc
     ++ filter (fun y => y ∉ od_keys acc) (first_occurrences (od_keys l)))%list.
Proof.
  revert acc. induction l as [|[k v] l IH]; intros acc.
  - simpl. by rewrite app_nil_r.
  - cbn [foldl fst snd]. rewrite IH.
    change (od_keys ((k, v) :: l)) with (k :: od_keys l).
    cbn [first_occurrences].
    destruct (decide (k ∈ od_keys acc)) as [Hin|Hnin].
    + rewrite od_keys_set_present by done.
      rewrite filter_cons_False by (intros Hk; by apply Hk).
      rewrite list_filter_filter. f_equal.
      apply list_filter_iff. intros y. split; [|tauto].
      intros Hy. split; [done|]. by intros ->.
    + rewrite od_set_fresh by done.
      rewrite filter_cons_True by done.
      assert (Hkeys : od_keys (acc ++ [(k, v)])%list = (od_keys acc ++ [k])%list)
        by (unfold od_keys; by rewrite fmap_app).
      rewrite Hkeys, <- app_assoc. cbn [app]. f_equal. f_equal.
      rewrite list_filter_filter. apply list_filter_iff. intros y.
      rewrite not_elem_of_app, list_elem_of_singleton. done.
Qed.

(** The values of the dict of line 181: the empty list under every
    category name, whether the name occurs once or more often. *)
Lemma od_get_assign_empty (cats : list category) (n : string)
  (acc : odict (list string)) :
  od_get n (foldl (fun d kv => od_set (fst kv) (snd kv) d) acc
              ((fun cat => (cat_name cat, [])) <$> cats))
  = if decide (n ∈ cat_name <$> cats) then Some [] else od_get n acc.
Proof.
  revert acc. induction cats as [|c cats IH]; intros acc; [done|].
  rewrite !fmap_cons. cbn [foldl fst snd]. rewrite IH.
  destruct (decide (n ∈ cat_name <$> cats)) as [Hin|Hnin].
  - rewrite decide_True; [done|]. by right.
  - destruct (decide (n = cat_name c)) as [->|Hne].
    + rewrite decide_True by left. apply od_get_set_eq.
    + rewrite decide_False.
      * by apply od_get_set_ne.
      * rewrite elem_of_cons. tauto.
Qed.

(** C1, as amended: the aggregation step returns a mapping whose keys
    are the category names in category order, a name that several
    categories share standing once, where it first occurs; the value at
    a category's name is what the categories of that name contribute, in
    category order: for each of them the formatted tickers of its coins
    that have an entry in the ticker dictionary, in coin order, a coin
    without an entry adding nothing.  When the names are pairwise
    distinct this is one entry per category, holding that category's
    tickers alone. *)
Theorem categorized_tickers_spec (categories : list category)
  (category_coins : odict (list string)) (ticker_dict : gmap string string) :
  (forall cat, cat ∈ categories ->
               is_Some (od_get (cat_id cat) category_coins)) ->
  exists ct,
    categorized_tickers categories category_coins ticker_dict = Ok ct
    /\ od_keys ct = first_occurrences (cat_name <$> categories)
    /\ (forall cat,
           cat ∈ categories ->
           od_get (cat_name cat) ct
           = Some (contributions category_coins ticker_dict (cat_name cat)
                     categories))
    /\ (NoDup (cat_name <$> categories) ->
        ct = (fun cat =>
                (cat_name cat,
                 resolved_tickers ticker_dict
                   (default [] (od_get (cat_id cat) category_coins))))
               <$> categories).
Proof.
  intros Hids. unfold categorized_tickers.
  set (ct0 := od_of_pairs ((fun cat => (cat_name cat, @nil string))
                             <$> categories)).
  assert (Hkeys0 : od_keys ct0 = first_occurrences (cat_name <$> categories)).
  { unfold ct0, od_of_pairs. rewrite od_keys_assign.
    change (od_keys []) with (@nil string). cbn [app].
    unfold od_keys. rewrite <- list_fmap_compose.
    apply filter_all, Forall_forall. intros x _. apply not_elem_of_nil. }
  assert (Hget0 : forall n, od_get n ct0
                            = if decide (n ∈ cat_name <$> categories)
                              then Some [] else None).
  { intros n. unfold ct0, od_of_pairs. by rewrite od_get_assign_empty. }
  destruct (categorize_loop_spec category_coins ticker_dict categories ct0 Hids)
    as (ct & Hrun & Hk & Hg).
  { intros cat Hin. rewrite Hkeys0. apply first_occurrences_elem.
    by apply list_elem_of_fmap_2. }
  assert (Hvalues : forall cat,
             cat ∈ categories ->
             od_get (cat_name cat) ct
             = Some (contributions category_coins ticker_dict (cat_name cat)
                       categories)).
  { intros cat Hin. rewrite Hg, Hget0.
    rewrite decide_True by (by apply list_elem_of_fmap_2). done. }
  exists ct. split; [exact Hrun|]. split; [by rewrite Hk|].
  split; [exact Hvalues|].
  intros Hnd. apply od_ext.
  - unfold od_wf. rewrite Hk, Hkeys0. apply first_occurrences_NoDup.
  - rewrite Hk, Hkeys0, first_occurrences_distinct by done.
    unfold od_keys. by rewrite <- list_fmap_compose.
  - intros k Hin. rewrite Hk, Hkeys0 in Hin.
    apply first_occurrences_elem, list_elem_of_fmap in Hin
      as (cat & -> & Hin).
    rewrite (Hvalues cat Hin).
    rewrite (od_get_by_name
               (fun c => resolved_tickers ticker_dict
                           (default [] (od_get (cat_id c) category_coins)))
               categories cat Hnd Hin).
    by rewrite contributions_distinct.
Qed.

(** The example of the specification, categories [X, Y] with coins
    X: [c1, c2], Y: [c3] and tickers {c2: T2, c3: T3}; and three
    categories of which the first and the last are both named X. *)
Lemma categorized_tickers_spec_witness :
  (exists ct,
      categorized_tickers
        [{| cat_id := "x"; cat_name := "X" |};
         {| cat_id := "y"; cat_name := "Y" |}]
        [("x", ["c1"; "c2"]); ("y", ["c3"])]
        (<["c2" := "T2"]> (<["c3" := "T3"]> ∅))
      = Ok ct
      /\ ct = [("X", ["T2"]); ("Y", ["T3"])])
  /\ (exists ct,
         categorized_tickers
           [{| cat_id := "a"; cat_name := "X" |};
            {| cat_id := "b"; cat_name := "Y" |};
            {| cat_id := "c"; cat_name := "X" |}]
           [("a", ["c1"; "c0"]); ("b", ["c2"]); ("c", ["c3"])]
           (<["c1" := "T1"]> (<["c2" := "T2"]> (<["c3" := "T3"]> ∅)))
         = Ok ct
         /\ od_keys ct = ["X"; "Y"]
         /\ od_get "X" ct = Some ["T1"; "T3"]
         /\ od_get "Y" ct = Some ["T2"]).
Proof.
  split.
  - destruct (categorized_tickers_spec
                [{| cat_id := "x"; cat_name := "X" |};
                 {| cat_id := "y"; cat_name := "Y" |}]
                [("x", ["c1"; "c2"]); ("y", ["c3"])]
                (<["c2" := "T2"]> (<["c3" := "T3"]> ∅)))
      as (ct & Hrun & _ & _ & Hdistinct).
    + intros cat Hin.
      apply elem_of_cons in Hin as [->|Hin]; [by eexists|].
      apply elem_of_cons in Hin as [->|Hin]; [by eexists|].
      inversion Hin.
    + exists ct. split; [exact Hrun|]. apply Hdistinct.
      apply (bool_decide_unpack _). vm_compute. exact I.
  - destruct (categorized_tickers_spec
                [{| cat_id := "a"; cat_name := "X" |};
                 {| cat_id := "b"; cat_name := "Y" |};
                 {| cat_id := "c"; cat_name := "X" |}]
                [("a", ["c1"; "c0"]); ("b", ["c2"]); ("c", ["c3"])]
                (<["c1" := "T1"]> (<["c2" := "T2"]> (<["c3" := "T3"]> ∅))))
      as (ct & Hrun & Hkeys & Hvalues & _).
    + intros cat Hin.
      apply elem_of_cons in Hin as [->|Hin]; [by eexists|].
      apply elem_of_cons in Hin as [->|Hin]; [by eexists|].
      apply elem_of_cons in Hin as [->|Hin]; [by eexists|].
      inversion Hin.
    + exists ct. split; [exact Hrun|]. split; [exact Hkeys|]. split.
      * exact (Hvalues {| cat_id := "a"; cat_name := "X" |} ltac:(left)).
      * exact (Hvalues {| cat_id := "b"; cat_name := "Y" |}
                 ltac:(right; left)).
Defined.

(** C1 as stated fails when two categories share a name: the mapping has
    one key for both, holding the tickers of both. *)
Lemma categorized_tickers_shared_name :
  let categories :=
    [{| cat_id := "a"; cat_name := "X" |}; {| cat_id := "b"; cat_name := "X" |}] in
  let category_coins := [("a", ["c1"]); ("b", ["c2"])] in
  let ticker_dict : gmap string string :=
    <["c1" := "T1"]> (<["c2" := "T2"]> ∅) in
  categorized_tickers categories category_coins ticker_dict
  = Ok [("X", ["T1"; "T2"])]
  /\ ~ (exists ct,
           categorized_tickers categories category_coins ticker_dict = Ok ct
           /\ od_keys ct = cat_name <$> categories
           /\ forall cat coins,
                cat ∈ categories ->
                od_get (cat_id cat) category_coins = Some coins ->
                od_get (cat_name cat) ct
                = Some (resolved_tickers ticker_dict coins)).
Proof.
  assert (Hrun : categorized_tickers
    [{| cat_id := "a"; cat_name := "X" |}; {| cat_id := "b"; cat_name := "X" |}]
    [("a", ["c1"]); ("b", ["c2"])]
    (<["c1" := "T1"]> (<["c2" := "T2"]> ∅)) = Ok [("X", ["T1"; "T2"])])
    by (vm_compute; reflexivity).
  simpl. split; [exact Hrun|].
  intros (ct & Hct & Hkeys & _). rewrite Hrun in Hct.
  injection Hct as <-. discriminate Hkeys.
Qed.

(** ** The Link-header parser *)

Lemma match_rep_closed (k : string -> captures -> option captures)
  (min : nat) (cs : charclass) (m : nat) :
  (forall s cap r, k s cap = Some r ->
                   length (closed r) = length (closed cap) + m) ->
  forall s n cap r,
    match_rep k min cs n s cap = Some r ->
    length (closed r) = length (closed cap) + m.
Proof.
  intros Hk. induction s as [|c s IH]; intros n cap r; simpl.
  - destruct (min <=? n)%nat; [apply Hk|done].
  - destruct (in_class cs c).
    + destruct (match_rep k min cs (S n) s (cap_char c cap)) as [r'|] eqn:E.
      * intros [= <-]. by apply IH in E.
      * destruct (min <=? n)%nat; [apply Hk|done].
    + destruct (min <=? n)%nat; [apply Hk|done].
Qed.

Lemma match_here_closed (p : list atom) :
  forall s cap r,
    match_here p s cap = Some r ->
    length (closed r) = length (closed cap) + count_close p.
Proof.
  induction p as [|a p IH]; intros s cap r; simpl.
  - intros [= <-]. lia.
  - destruct a as [c|min cs| |].
    + destruct s as [|c' s]; [done|].
      destruct (Ascii.eqb c' c); [|done]. intros H. by apply IH in H.
    + apply match_rep_closed. exact IH.
    + intros H. by apply IH in H.
    + intros H. apply IH in H. rewrite H. simpl. rewrite length_app. simpl. lia.
Qed.

Lemma re_search_groups (p : list atom) (s : string) (m : list string) :
  re_search p s = Some m -> length m = count_close p.
Proof.
  induction s as [|c s IH]; simpl.
  - destruct (match_here p EmptyString _) as [r|] eqn:E; [|done].
    intros [= <-]. by apply match_here_closed in E.
  - destruct (match_here p (String c s) _) as [r|] eqn:E; [|exact IH].
    intros [= <-]. by apply match_here_closed in E.
Qed.

Lemma re_search_link_groups (entry : string) (m : list string) :
  re_search link_pattern entry = Some m -> exists url rel, m = [url; rel].
Proof.
  intros H. apply re_search_groups in H. simpl in H.
  destruct m as [|url [|rel [|? ?]]]; try discriminate. eauto.
Qed.

Lemma cap_chars_cons (c : ascii) (x : string) (cap : captures) :
  cap_chars x (cap_char c cap) = cap_chars (String c x) cap.
Proof.
  unfold cap_chars, cap_char. simpl. f_equal.
  destruct (opened cap); simpl; [|done]. by rewrite str_app_assoc.
Qed.

Lemma cap_chars_nil (cap : captures) : cap_chars EmptyString cap = cap.
Proof.
  unfold cap_chars. destruct cap as [cl [g|]]; simpl; [|done].
  by rewrite str_app_nil_r.
Qed.

(** A maximal run of the class is taken whole when the rest of the pattern
    matches behind it. *)
Lemma match_rep_greedy (k : string -> captures -> option captures)
  (min : nat) (cs : charclass) (x rest : string) (r : captures) :
  (forall c, has_char c x = true -> in_class cs c = true) ->
  match rest with
  | String c _ => in_class cs c = false
  | EmptyString => True
  end ->
  forall n cap,
    (min <= n + String.length x)%nat ->
    k rest (cap_chars x cap) = Some r ->
    match_rep k min cs n (x ++ rest) cap = Some r.
Proof.
  intros Hx Hrest. induction x as [|c x IH]; intros n cap Hmin Hk.
  - rewrite cap_chars_nil in Hk. simpl in Hmin.
    change (EmptyString ++ rest) with rest.
    destruct rest as [|c rest]; simpl.
    + rewrite (proj2 (Nat.leb_le _ _)) by lia. exact Hk.
    + rewrite Hrest, (proj2 (Nat.leb_le _ _)) by lia. exact Hk.
  - rewrite str_app_cons. simpl.
    rewrite (Hx c) by (simpl; by rewrite Ascii.eqb_refl).
    rewrite (IH ltac:(intros c' Hc'; apply Hx; simpl; rewrite Hc';
                      by destruct (Ascii.eqb c c')) (S n) (cap_char c cap)).
    + done.
    + simpl in Hmin. lia.
    + by rewrite cap_chars_cons.
Qed.

Lemma not_char_class (c : ascii) (x : string) :
  has_char c x = false ->
  forall c', has_char c' x = true -> in_class (NotChar c) c' = true.
Proof.
  intros Hx c' Hc'. simpl. destruct (Ascii.eqb_spec c' c) as [->|]; [|done].
  congruence.
Qed.

Lemma str_length_pos (s : string) : s <> EmptyString -> (1 <= String.length s)%nat.
Proof. destruct s; [done|simpl; lia]. Qed.

Lemma match_link_core (url ws rel post : string) :
  url <> EmptyString -> has_char ">" url = false ->
  (forall c, has_char c ws = true -> is_space c = true) ->
  rel <> EmptyString -> has_char dquote rel = false ->
  match_here link_pattern
    (String "<" (url ++ String ">" (String ";" (ws ++
       String "r" (String "e" (String "l" (String "=" (String dquote
         (rel ++ String dquote post)))))))))
    {| closed := []; opened := None |}
  = Some {| closed := [url; rel]; opened := None |}.
Proof.
  intros Hurl Hgt Hws Hrel Hq. unfold link_pattern.
  cbn [match_here]. rewrite Ascii.eqb_refl.
  erewrite match_rep_greedy; [reflexivity|..].
  - by apply not_char_class.
  - reflexivity.
  - apply str_length_pos in Hurl. lia.
  - cbn [match_here]. rewrite !Ascii.eqb_refl.
    erewrite match_rep_greedy; [reflexivity|exact Hws|reflexivity|lia|].
    cbn [match_here]. rewrite !Ascii.eqb_refl.
    erewrite match_rep_greedy; [reflexivity|..].
    + by apply not_char_class.
    + reflexivity.
    + apply str_length_pos in Hrel. lia.
    + cbn [match_here]. rewrite !Ascii.eqb_refl. reflexivity.
Qed.

(** The search passes over text that cannot start a match. *)
Lemma re_search_skip (c0 : ascii) (p : list atom) (pre s : string) :
  has_char c0 pre = false ->
  re_search (Lit c0 :: p) (pre ++ s) = re_search (Lit c0 :: p) s.
Proof.
  induction pre as [|c pre IH]; [done|]. simpl has_char.
  intros H. apply orb_false_iff in H as [Hc Hpre].
  rewrite str_app_cons. cbn [re_search match_here]. rewrite Hc. by apply IH.
Qed.

Lemma link_entry_search (entry url rel : string) :
  link_entry entry url rel ->
  re_search link_pattern entry = Some [url; rel].
Proof.
  intros (pre & ws & post & -> & Hpre & Hurl & Hgt & Hws & Hrel & Hq).
  unfold link_pattern at 1. rewrite re_search_skip by done.
  change (re_search link_pattern
    (String "<" (url ++ String ">" (String ";" (ws ++
       String "r" (String "e" (String "l" (String "=" (String dquote
         (rel ++ String dquote post)))))))))
    = Some [url; rel]).
  cbn [re_search]. by rewrite match_link_core.
Qed.

Lemma parse_links_spec (entries : list string) :
  forall links0,
  exists links,
    parse_links entries links0 = Ok links
    /\ forall rel url,
         links !! rel = Some url
         <-> last_match entries rel url
             \/ ((forall e u, e ∈ entries ->
                              re_search link_pattern e <> Some [u; rel])
                 /\ links0 !! rel = Some url).
Proof.
  induction entries as [|e rest IH]; intros links0; cbn [parse_links].
  - exists links0. split; [done|]. intros rel url. split.
    + intros H. right. split; [|done]. intros e u He. inversion He.
    + intros [(before & entry & after & Heq & _)|[_ H]]; [|done].
      by destruct before.
  - destruct (re_search link_pattern e) as [m|] eqn:Em.
    + destruct (re_search_link_groups _ _ Em) as (u0 & r0 & ->).
      cbn [group rbind]. simpl.
      destruct (IH (<[r0 := u0]> links0)) as (links & -> & Hiff).
      exists links. split; [done|]. intros rel url. rewrite Hiff. split.
      * intros [(before & entry & after & -> & Hm & Hafter)|[Hnone Hl]].
        -- left. by exists (e :: before), entry, after.
        -- destruct (decide (r0 = rel)) as [->|Hne].
           ++ rewrite lookup_insert_eq in Hl. injection Hl as ->.
              left. by exists [], e, rest.
           ++ rewrite lookup_insert_ne in Hl by done. right.
              split; [|done]. intros e' u He'.
              apply elem_of_cons in He' as [->|He']; [|by apply Hnone].
              rewrite Em. congruence.
      * intros [(before & entry & after & Heq & Hm & Hafter)|[Hnone Hl]].
        -- destruct before as [|b before]; simpl in Heq;
             injection Heq as <- ->.
           ++ right. rewrite Em in Hm. injection Hm as <- <-.
              split; [done|]. by rewrite lookup_insert_eq.
           ++ left. by exists before, entry, after.
        -- right. split.
           ++ intros e' u He'. apply Hnone. by right.
           ++ rewrite lookup_insert_ne; [done|]. intros ->.
              by apply (Hnone e u0 ltac:(left)).
    + destruct (IH links0) as (links & -> & Hiff).
      exists links. split; [done|]. intros rel url. rewrite Hiff. split.
      * intros [(before & entry & after & -> & Hm & Hafter)|[Hnone Hl]].
        -- left. by exists (e :: before), entry, after.
        -- right. split; [|done]. intros e' u He'.
           apply elem_of_cons in He' as [->|He']; [|by apply Hnone].
           by rewrite Em.
      * intros [(before & entry & after & Heq & Hm & Hafter)|[Hnone Hl]].
        -- destruct before as [|b before]; simpl in Heq;
             injection Heq as <- ->.
           ++ congruence.
           ++ left. by exists before, entry, after.
        -- right. split; [|done]. intros e' u He'. apply Hnone. by right.
Qed.

(** C5: [parse_link_header] returns on every string and never raises; an
    entry of the shape <URL>; rel=QRELQ between commas is found by the
    pattern with its URL and REL; the result maps a REL to a URL exactly
    when that pair is the last entry found for that REL, so entries that do
    not match are skipped; and the header of the specification gives
    {next: https://x/y?page=2, last: https://x/y?page=9}. *)
Theorem parse_link_header_spec :
  (forall link_header,
      exists links,
        parse_link_header link_header = Ok links
        /\ forall rel url,
             links !! rel = Some url
             <-> last_match (split_on comma link_header) rel url)
  /\ (forall entry url rel,
         link_entry entry url rel ->
         re_search link_pattern entry = Some [url; rel])
  /\ parse_link_header example_link_header
     = Ok (<["next" := "https://x/y?page=2"]>
             (<["last" := "https://x/y?page=9"]> ∅))
  /\ parse_link_header "<https://x/y?page=2>; rel=next, , >;<" = Ok ∅.
Proof.
  split; [|split; [|split]].
  - intros link_header. unfold parse_link_header.
    destruct (parse_links_spec (split_on comma link_header) ∅)
      as (links & -> & Hiff).
    exists links. split; [done|]. intros rel url. rewrite Hiff.
    split; [|by left]. intros [H|[_ H]]; [done|].
    by rewrite lookup_empty in H.
  - exact link_entry_search.
  - vm_compute. reflexivity.
  - vm_compute. reflexivity.
Qed.

Lemma parse_link_header_spec_witness :
  link_entry (" <https://x/y?page=9>; rel=" ++ String dquote "last"
              ++ String dquote EmptyString)
             "https://x/y?page=9" "last"
  /\ re_search link_pattern
       (" <https://x/y?page=9>; rel=" ++ String dquote "last"
        ++ String dquote EmptyString)
     = Some ["https://x/y?page=9"; "last"].
Proof.
  assert (H : link_entry (" <https://x/y?page=9>; rel=" ++ String dquote "last"
                          ++ String dquote EmptyString)
                "https://x/y?page=9" "last").
  { exists " ", " ", EmptyString. split; [reflexivity|].
    repeat split; try done.
    intros c Hc. cbn [has_char] in Hc. rewrite orb_false_r in Hc.
    apply Ascii.eqb_eq in Hc as <-. reflexivity. }
  split; [exact H|].
  exact (proj1 (proj2 parse_link_header_spec) _ _ _ H).
Defined.

(** ** The watchlist writer *)

Lemma unlines_app (l1 l2 : list string) :
  unlines (l1 ++ l2) = unlines l1 ++ unlines l2.
Proof.
  induction l1 as [|l l1 IH]; [done|].
  cbn [app unlines]. by rewrite IH, !str_app_assoc.
Qed.

Lemma write_tickers_unlines (data : list string) (file : string) :
  write_tickers data file = file ++ unlines data.
Proof.
  revert file. induction data as [|t data IH]; intros file; cbn [write_tickers unlines].
  - by rewrite str_app_nil_r.
  - rewrite IH. unfold file_write. by rewrite !str_app_assoc.
Qed.

Lemma write_data_unlines (is_index : bool) (data : payload is_index)
  (file : string) :
  write_data is_index data file = file ++ unlines (data_lines is_index data).
Proof.
  destruct is_index; simpl in *.
  - reflexivity.
  - apply write_tickers_unlines.
Qed.

Lemma write_categories_unlines (is_index : bool)
  (items : odict (payload is_index)) (file : string) :
  write_categories is_index items file
  = file ++ unlines (watchlist_lines is_index items).
Proof.
  revert file.
  induction items as [|[name data] items IH]; intros file.
  - simpl. by rewrite str_app_nil_r.
  - cbn [write_categories]. rewrite IH, write_data_unlines.
    unfold file_write, watchlist_lines. cbn [mbind list_bind fst snd].
    rewrite unlines_app. cbn [unlines].
    by rewrite !str_app_assoc.
Qed.

Lemma split_on_line (l rest : string) :
  has_char newline l = false ->
  split_on newline (l ++ nl ++ rest) = l :: split_on newline rest.
Proof.
  induction l as [|c l IH]; intros Hl.
  - reflexivity.
  - simpl in Hl. apply orb_false_iff in Hl as [Hc Hl].
    rewrite str_app_cons. cbn [split_on]. rewrite Hc, IH by done. done.
Qed.

Lemma split_on_unlines (ls : list string) :
  (forall l, l ∈ ls -> has_char newline l = false) ->
  split_on newline (unlines ls) = (ls ++ [EmptyString])%list.
Proof.
  induction ls as [|l ls IH]; intros Hls; [done|].
  cbn [unlines]. rewrite split_on_line by (apply Hls; left).
  rewrite IH; [done|]. intros l' Hl'. apply Hls. by right.
Qed.

Lemma has_char_app (c : ascii) (a b : string) :
  has_char c (a ++ b) = has_char c a || has_char c b.
Proof.
  induction a as [|c' a IH]; [done|].
  rewrite str_app_cons. simpl. by rewrite IH, orb_assoc.
Qed.

Lemma has_char_unlines (c : ascii) (ls : list string) :
  c <> newline ->
  (forall l, l ∈ ls -> has_char c l = false) ->
  has_char c (unlines ls) = false.
Proof.
  intros Hc. induction ls as [|l ls IH]; intros Hls; [done|].
  cbn [unlines]. rewrite !has_char_app, (Hls l) by left.
  rewrite IH by (intros l' Hl'; apply Hls; by right).
  unfold nl. cbn [has_char orb]. rewrite !orb_false_r.
  apply Ascii.eqb_neq. congruence.
Qed.

(** Text without a carriage return is read as it is stored. *)
Lemma universal_newlines_id (s : string) :
  has_char carriage_return s = false -> universal_newlines s = s.
Proof.
  induction s as [|c s IH]; [done|]. intros Hs. cbn [has_char] in Hs.
  apply orb_false_iff in Hs as [Hc Hs].
  cbn [universal_newlines]. rewrite Hc. by rewrite IH.
Qed.

Lemma save_files (filename : string) (is_index : bool)
  (categorized_data : odict (payload is_index)) (fs : FileSystem) :
  fs_files (save_to_tradingview_watchlist filename is_index
              categorized_data fs)
  = <[filename := unlines (watchlist_lines is_index categorized_data)]>
      (fs_files fs).
Proof.
  unfold save_to_tradingview_watchlist. cbn [fs_files].
  rewrite write_categories_unlines.
  change (EmptyString ++ ?x) with x.
  by destruct (negb (path_exists (dirname filename) fs)
               && negb (String.eqb (dirname filename) EmptyString)).
Qed.

(** C8, as amended: whatever the file held before, after the call it
    holds, for each category in iteration order, the line ###name followed
    by the index string and an empty line when is_index, and by one line
    per ticker otherwise; other files are untouched; and when no name,
    ticker or index string contains a newline or a carriage return,
    reading the file back in text mode, line by line, gives exactly these
    lines in this order. *)
Theorem save_to_tradingview_watchlist_spec (filename : string)
  (is_index : bool) (categorized_data : odict (payload is_index))
  (fs : FileSystem) :
  let fs' :=
    save_to_tradingview_watchlist filename is_index categorized_data fs in
  fs_files fs' !! filename
  = Some (unlines (watchlist_lines is_index categorized_data))
  /\ (forall other, other <> filename ->
                    fs_files fs' !! other = fs_files fs !! other)
  /\ ((forall l, l ∈ watchlist_lines is_index categorized_data ->
                 has_char newline l = false
                 /\ has_char carriage_return l = false) ->
      read_lines filename fs'
      = Some (watchlist_lines is_index categorized_data ++ [EmptyString])%list).
Proof.
  intros fs'. unfold read_lines. subst fs'. rewrite save_files.
  split; [by rewrite lookup_insert_eq|]. split.
  - intros other Hne. by rewrite lookup_insert_ne.
  - intros Hnl. rewrite lookup_insert_eq. cbn [fmap option_fmap option_map].
    rewrite universal_newlines_id.
    + rewrite split_on_unlines; [done|]. intros l Hl. by apply Hnl.
    + apply has_char_unlines; [done|]. intros l Hl. by apply Hnl.
Qed.

Lemma save_to_tradingview_watchlist_spec_witness :
  let data : odict (payload false) :=
    [("AI", ["BINANCE:FETUSDT"; "BINANCE:RNDRUSDT"]); ("Gaming", [])] in
  (forall l, l ∈ watchlist_lines false data ->
             has_char newline l = false
             /\ has_char carriage_return l = false)
  /\ read_lines "Watchlists/Combined.txt"
       (save_to_tradingview_watchlist "Watchlists/Combined.txt" false data
          empty_fs)
     = Some ["###AI"; "BINANCE:FETUSDT"; "BINANCE:RNDRUSDT"; "###Gaming";
             EmptyString].
Proof.
  intros data.
  assert (H : forall l, l ∈ watchlist_lines false data ->
                        has_char newline l = false
                        /\ has_char carriage_return l = false).
  { intros l Hl. vm_compute in Hl.
    repeat (apply elem_of_cons in Hl as [->|Hl]; [split; reflexivity|]).
    inversion Hl. }
  split; [exact H|].
  exact (proj2 (proj2 (save_to_tradingview_watchlist_spec
                         "Watchlists/Combined.txt" false data empty_fs)) H).
Defined.

(** C8 as stated fails for a name that contains a newline: the file read
    back shows two category headers where one was written.  A carriage
    return in a name does the same, being read back as a newline. *)
Lemma save_to_tradingview_watchlist_newline :
  let data : odict (payload false) := [("X" ++ nl ++ "###Y", [])] in
  let fs' := save_to_tradingview_watchlist "w.txt" false data empty_fs in
  let data_cr : odict (payload false) :=
    [("X" ++ String carriage_return "###Y", [])] in
  let fs_cr :=
    save_to_tradingview_watchlist "w.txt" false data_cr empty_fs in
  watchlist_lines false data = ["###X" ++ nl ++ "###Y"]
  /\ read_lines "w.txt" fs' = Some ["###X"; "###Y"; EmptyString]
  /\ read_lines "w.txt" fs'
     <> Some (watchlist_lines false data ++ [EmptyString])%list
  /\ watchlist_lines false data_cr
     = ["###X" ++ String carriage_return "###Y"]
  /\ read_lines "w.txt" fs_cr = Some ["###X"; "###Y"; EmptyString]
  /\ read_lines "w.txt" fs_cr
     <> Some (watchlist_lines false data_cr ++ [EmptyString])%list.
Proof.
  intros data fs' data_cr fs_cr.
  assert (Hread : read_lines "w.txt" fs'
                  = Some ["###X"; "###Y"; EmptyString])
    by (vm_compute; reflexivity).
  assert (Hread_cr : read_lines "w.txt" fs_cr
                     = Some ["###X"; "###Y"; EmptyString])
    by (vm_compute; reflexivity).
  split; [reflexivity|]. split; [exact Hread|]. split.
  { rewrite Hread. vm_compute. discriminate. }
  split; [reflexivity|]. split; [exact Hread_cr|].
  rewrite Hread_cr. vm_compute. discriminate.
Qed.

(** ** The rate limiter and the request wrapper *)

Lemma Qltb_false (x y : Q) : Qltb x y = false <-> (y <= x)%Q.
Proof.
  unfold Qltb. rewrite negb_false_iff. apply Qle_bool_iff.
Qed.

Lemma Qltb_true (x y : Q) : Qltb x y = true <-> (x < y)%Q.
Proof.
  unfold Qltb. rewrite negb_true_iff. split.
  - intros H. apply Qnot_le_lt. intros Hle.
    apply Qle_bool_iff in Hle. congruence.
  - intros H. destruct (Qle_bool y x) eqn:E; [|done].
    apply Qle_bool_iff in E. lra.
Qed.

Lemma prune_head (current_time p : Q) (rs : list Q) (r0 : Q) (rest : list Q) :
  prune current_time p rs = r0 :: rest ->
  (current_time - p <= r0)%Q.
Proof.
  induction rs as [|r rs IH]; simpl; [done|].
  destruct (Qltb r (current_time - p)) eqn:E; [exact IH|].
  intros [= -> ->]. by apply Qltb_false.
Qed.

(** With room for at least one request the limiter never raises. *)
Lemma wait_ok (w : World) :
  (1 <= max_requests (limiter w))%Z ->
  exists w', wait w = (Ret tt, w') /\ waited w w'.
Proof.
  intros Hmax. unfold wait, bind, monotonic, get_limiter, set_requests.
  cbn [clock limiter network n_get trace requests max_requests period].
  set (rs := prune (clock w) (period (limiter w)) (requests (limiter w))).
  destruct (Z.of_nat (length rs) >=? max_requests (limiter w))%Z eqn:Efull.
  - destruct rs as [|r0 rest] eqn:Ers.
    + apply Z.geb_le in Efull. simpl in Efull. lia.
    + unfold sleep. cbn [clock limiter network n_get trace].
      pose proof (prune_head _ _ _ _ _ Ers) as Hhead.
      assert (Hnn : Qltb (r0 + period (limiter w) - clock w) 0 = false).
      { apply Qltb_false. lra. }
      rewrite Hnn. eexists. split; [reflexivity|].
      unfold waited. simpl. repeat split; try done.
      eexists. split; [right; eauto|done].
  - unfold ret. eexists. split; [reflexivity|].
    unfold waited. simpl. repeat split; try done.
    exists []. split; [by left|by rewrite app_nil_r].
Qed.

Lemma waited_gets (w w' : World) :
  waited w w' -> gets (trace w') = gets (trace w).
Proof.
  intros (_ & _ & _ & _ & es & Hes & ->).
  unfold gets. rewrite omap_app.
  destruct Hes as [->|[d ->]]; simpl; by rewrite app_nil_r.
Qed.

Lemma attempted_facts (url : string) (params : option (odict pval))
  (w w' : World) :
  attempted url params w w' ->
  network w' = network w /\ n_get w' = S (n_get w)
  /\ max_requests (limiter w') = max_requests (limiter w)
  /\ gets (trace w') = (gets (trace w) ++ [(url, params)])%list.
Proof.
  intros (w1 & Hw & ->). pose proof (waited_gets _ _ Hw) as Hg.
  destruct Hw as (Hn & Hc & Hm & _ & _). simpl.
  repeat split; [done|congruence|done|].
  unfold gets in *. rewrite omap_app, Hg. done.
Qed.

(** One round of [safe_request]: what it does with the reply that the
    network holds for the next GET. *)
Lemma safe_request_round (fuel : nat) (url : string)
  (params : option (odict pval)) (w : World) :
  (1 <= max_requests (limiter w))%Z ->
  exists w',
    attempted url params w w'
    /\ safe_request (S fuel) url params w
       = match snd (network w (n_get w)) with
         | Response status_code body headers =>
             if is_error_status status_code then
               if (status_code =? 429)%Z then
                 bind (sleep 10) (fun _ => safe_request fuel url params) w'
               else (Exc (HTTPError status_code), w')
             else
               match body with
               | Some j => (Ret (Some j, Some headers), w')
               | None => (Ret (None, None), w')
               end
         | ConnectionFailed => (Ret (None, None), w')
         end.
Proof.
  intros Hmax. destruct (wait_ok w Hmax) as (w1 & Hwait & Hw).
  eexists. split; [exists w1; split; [exact Hw|reflexivity]|].
  cbn [safe_request]. unfold bind at 1. rewrite Hwait.
  unfold bind at 1. unfold requests_get.
  destruct Hw as (Hn & Hc & _). rewrite <- Hn, <- Hc.
  destruct (network w1 (n_get w1)) as [took reply]. cbn [fst snd].
  destruct reply as [status_code body headers|]; [|reflexivity].
  destruct (is_error_status status_code); [|by destruct body].
  destruct (status_code =? 429)%Z; reflexivity.
Qed.

Lemma error_status_2xx (s : Z) :
  (200 <= s < 300)%Z -> is_error_status s = false.
Proof. unfold is_error_status. lia. Qed.

Lemma error_status_4xx_5xx (s : Z) :
  (400 <= s < 600)%Z -> is_error_status s = true.
Proof. unfold is_error_status. lia. Qed.

Lemma safe_request_failed (fuel : nat) (url : string)
  (params : option (odict pval)) (w : World) :
  (1 <= max_requests (limiter w))%Z ->
  snd (network w (n_get w)) = ConnectionFailed ->
  exists w',
    attempted url params w w'
    /\ safe_request (S fuel) url params w = (Ret (None, None), w').
Proof.
  intros Hmax Hreply.
  destruct (safe_request_round fuel url params w Hmax) as (w' & Hw & Hrun).
  rewrite Hreply in Hrun. eauto.
Qed.

(** C6, as amended: behind the rate limiter one GET goes out, and
    [safe_request] returns (body, headers) on a 2xx response whose body
    decodes, raises the HTTP error on a 4xx or 5xx status other than 429,
    and returns (None, None) when there is no response; on that sentinel
    [fetch_categories] returns the empty list and the two paginating
    fetchers return what they have collected, without another request. *)
Theorem safe_request_classification :
  (forall fuel url params w,
      (1 <= max_requests (limiter w))%Z ->
      exists w',
        attempted url params w w'
        /\ (forall s j h,
               snd (network w (n_get w)) = Response s (Some j) h ->
               (200 <= s < 300)%Z ->
               safe_request (S fuel) url params w
               = (Ret (Some j, Some h), w'))
        /\ (forall s body h,
               snd (network w (n_get w)) = Response s body h ->
               (400 <= s < 600)%Z -> s <> 429%Z ->
               safe_request (S fuel) url params w
               = (Exc (HTTPError s), w'))
        /\ (snd (network w (n_get w)) = ConnectionFailed ->
            safe_request (S fuel) url params w = (Ret (None, None), w')))
  /\ (forall fuel limit w,
         (1 <= max_requests (limiter w))%Z ->
         snd (network w (n_get w)) = ConnectionFailed ->
         exists w',
           attempted categories_url None w w'
           /\ fetch_categories (S fuel) limit w = (Ret [], w'))
  /\ (forall fuel category_id max_coins page coins w,
         (1 <= max_requests (limiter w))%Z ->
         snd (network w (n_get w)) = ConnectionFailed ->
         (Z.of_nat (length coins) < max_coins)%Z ->
         exists w',
           attempted markets_url (Some (coin_params category_id page)) w w'
           /\ fetch_coins_loop (S (S fuel)) category_id max_coins page true
                coins w
              = (Ret coins, w'))
  /\ (forall url_query url_without_query fuel target url params tickers w,
         (1 <= max_requests (limiter w))%Z ->
         snd (network w (n_get w)) = ConnectionFailed ->
         exists w',
           attempted url params w w'
           /\ fetch_tickers_loop url_query url_without_query (S (S fuel))
                target url params tickers w
              = (Ret tickers, w')).
Proof.
  split; [|split; [|split]].
  - intros fuel url params w Hmax.
    destruct (safe_request_round fuel url params w Hmax) as (w' & Hw & Hrun).
    exists w'. split; [exact Hw|]. split; [|split].
    + intros s j h Hreply Hs. rewrite Hrun, Hreply.
      by rewrite error_status_2xx.
    + intros s body h Hreply Hs Hne. rewrite Hrun, Hreply.
      rewrite error_status_4xx_5xx by done.
      by rewrite (proj2 (Z.eqb_neq _ _) Hne).
    + intros Hreply. by rewrite Hrun, Hreply.
  - intros fuel limit w Hmax Hreply.
    destruct (safe_request_failed fuel categories_url None w Hmax Hreply)
      as (w' & Hw & Hrun).
    exists w'. split; [exact Hw|].
    unfold fetch_categories, bind. by rewrite Hrun.
  - intros fuel category_id max_coins page coins w Hmax Hreply Hlen.
    destruct (safe_request_failed fuel markets_url
                (Some (coin_params category_id page)) w Hmax Hreply)
      as (w' & Hw & Hrun).
    exists w'. split; [exact Hw|].
    cbn [fetch_coins_loop andb].
    rewrite (proj2 (Z.ltb_lt _ _) Hlen). unfold bind. by rewrite Hrun.
  - intros url_query url_without_query fuel target url params tickers w
      Hmax Hreply.
    destruct (safe_request_failed fuel url params w Hmax Hreply)
      as (w' & Hw & Hrun).
    exists w'. split; [exact Hw|].
    cbn [fetch_tickers_loop]. unfold bind. by rewrite Hrun.
Qed.

Lemma safe_request_classification_witness :
  let w := initial_world (fun _ => (0%Q, ConnectionFailed)) in
  ((1 <= max_requests (limiter w))%Z
   /\ snd (network w (n_get w)) = ConnectionFailed)
  /\ exists w',
       attempted categories_url None w w'
       /\ fetch_categories 1 500 w = (Ret [], w').
Proof.
  intros w.
  assert (Hmax : (1 <= max_requests (limiter w))%Z) by (simpl; lia).
  assert (Hreply : snd (network w (n_get w)) = ConnectionFailed)
    by reflexivity.
  split; [by split|].
  exact (proj1 (proj2 safe_request_classification) 0%nat 500%Z w Hmax Hreply).
Defined.

(** C6 as stated fails on a status that is neither 2xx nor an error
    status: on 304 no HTTP error reaches the caller; an empty body gives
    the sentinel, a body that decodes is returned like a success.  (A 2xx
    response whose body does not decode gives the sentinel as well.) *)
Lemma safe_request_not_modified :
  fst (safe_request 1 categories_url None
         (initial_world (fun _ => (0%Q, Response 304 None ∅))))
  = Ret (None, None)
  /\ fst (safe_request 1 categories_url None
            (initial_world (fun _ => (0%Q, Response 304 (Some JNull) ∅))))
     = Ret (Some JNull, Some ∅)
  /\ fst (safe_request 1 categories_url None
            (initial_world (fun _ => (0%Q, Response 200 None ∅))))
     = Ret (None, None)
  /\ ~ (forall fuel url params w s body h,
           (1 <= max_requests (limiter w))%Z ->
           snd (network w (n_get w)) = Response s body h ->
           ~ (200 <= s < 300)%Z -> s <> 429%Z ->
           fst (safe_request (S fuel) url params w) = Exc (HTTPError s)).
Proof.
  assert (Hrun : fst (safe_request 1 categories_url None
                        (initial_world (fun _ => (0%Q, Response 304 None ∅))))
                 = Ret (None, None)) by (vm_compute; reflexivity).
  split; [exact Hrun|]. split; [vm_compute; reflexivity|].
  split; [vm_compute; reflexivity|].
  intros Hclaim.
  specialize (Hclaim 0%nat categories_url None
                (initial_world (fun _ => (0%Q, Response 304 None ∅)))
                304%Z None ∅ ltac:(simpl; lia) eq_refl ltac:(lia) ltac:(lia)).
  rewrite Hrun in Hclaim. discriminate.
Qed.

Lemma attempted_trace (url : string) (params : option (odict pval))
  (w w' : World) :
  attempted url params w w' ->
  exists es,
    limiter_sleep es
    /\ trace w' = (trace w ++ es ++ [EvGet url params])%list.
Proof.
  intros (w1 & (_ & _ & _ & _ & es & Hes & Htr) & ->). simpl.
  exists es. split; [done|]. by rewrite Htr, <- app_assoc.
Qed.

(** C7: a 429 followed by a 200 for the same request: [safe_request]
    sleeps the 10 seconds, sends the same URL and parameters once more and
    returns the second response's body and headers; two GETs went out in
    all, and the only other events are the rate limiter's own sleeps.  The
    caller gets this one value: [fetch_categories], for one, returns the
    categories of the 200 response, cut at its limit. *)
Theorem safe_request_retry_after_429 (fuel : nat) (url : string)
  (params : option (odict pval)) (w : World)
  (body429 : option json) (h429 : gmap string string)
  (j : json) (h : gmap string string) :
  (1 <= max_requests (limiter w))%Z ->
  snd (network w (n_get w)) = Response 429 body429 h429 ->
  snd (network w (S (n_get w))) = Response 200 (Some j) h ->
  exists w' es1 es2,
    safe_request (S (S fuel)) url params w = (Ret (Some j, Some h), w')
    /\ limiter_sleep es1 /\ limiter_sleep es2
    /\ trace w'
       = (trace w ++ es1 ++ [EvGet url params; EvSleep 10] ++ es2
            ++ [EvGet url params])%list
    /\ n_get w' = (n_get w + 2)%nat
    /\ gets (trace w')
       = (gets (trace w) ++ [(url, params); (url, params)])%list
    /\ forall limit c l,
         url = categories_url -> params = None -> j = JCategories (c :: l) ->
         fetch_categories (S (S fuel)) limit w
         = (Ret (py_slice_to limit (c :: l)), w').
Proof.
  intros Hmax H429 H200.
  destruct (safe_request_round (S fuel) url params w Hmax)
    as (w1 & Hw1 & Hrun1).
  rewrite H429 in Hrun1. cbn [is_error_status] in Hrun1.
  change (is_error_status 429) with true in Hrun1.
  change (429 =? 429)%Z with true in Hrun1. cbv iota in Hrun1.
  destruct (attempted_facts _ _ _ _ Hw1) as (Hn1 & Hc1 & Hm1 & Hg1).
  destruct (attempted_trace _ _ _ _ Hw1) as (es1 & Hes1 & Ht1).
  set (w2 := {| clock := clock w1 + 10; limiter := limiter w1;
                network := network w1; n_get := n_get w1;
                trace := (trace w1 ++ [EvSleep 10])%list |}).
  assert (Hsleep : sleep 10 w1 = (Ret tt, w2)) by reflexivity.
  unfold bind in Hrun1. rewrite Hsleep in Hrun1.
  destruct (safe_request_round fuel url params w2) as (w3 & Hw3 & Hrun3).
  { simpl. lia. }
  assert (Hreply : snd (network w2 (n_get w2)) = Response 200 (Some j) h).
  { simpl. by rewrite Hn1, Hc1. }
  rewrite Hreply in Hrun3. change (is_error_status 200) with false in Hrun3.
  cbv iota in Hrun3.
  destruct (attempted_facts _ _ _ _ Hw3) as (Hn3 & Hc3 & Hm3 & Hg3).
  destruct (attempted_trace _ _ _ _ Hw3) as (es2 & Hes2 & Ht3).
  exists w3, es1, es2. split; [by rewrite Hrun1|].
  split; [done|]. split; [done|]. split; [|split; [|split]].
  - rewrite Ht3. simpl. rewrite Ht1. by rewrite <- !app_assoc.
  - rewrite Hc3. simpl. lia.
  - rewrite Hg3. simpl. unfold gets at 1. rewrite omap_app. simpl.
    fold (gets (trace w1)). rewrite Hg1, app_nil_r. by rewrite <- app_assoc.
  - intros limit c l -> -> ->. unfold fetch_categories, bind.
    by rewrite Hrun1, Hrun3.
Qed.

Lemma safe_request_retry_after_429_witness :
  let net (n : nat) : Q * http_reply :=
    match n with
    | O => (0%Q, Response 429 None ∅)
    | _ => (0%Q, Response 200 (Some (JMarkets [{| c_id := "bitcoin" |}])) ∅)
    end in
  let w := initial_world net in
  exists w' es1 es2,
    safe_request 2 markets_url None w
    = (Ret (Some (JMarkets [{| c_id := "bitcoin" |}]), Some ∅), w')
    /\ limiter_sleep es1 /\ limiter_sleep es2
    /\ trace w'
       = (trace w ++ es1 ++ [EvGet markets_url None; EvSleep 10] ++ es2
            ++ [EvGet markets_url None])%list
    /\ n_get w' = (n_get w + 2)%nat
    /\ gets (trace w')
       = (gets (trace w) ++ [(markets_url, None); (markets_url, None)])%list.
Proof.
  intros net w.
  destruct (safe_request_retry_after_429 0 markets_url None w None ∅
              (JMarkets [{| c_id := "bitcoin" |}]) ∅)
    as (w' & es1 & es2 & Hrun & H1 & H2 & Ht & Hn & Hg & _).
  - simpl. lia.
  - reflexivity.
  - reflexivity.
  - exists w', es1, es2. by repeat split.
Defined.

(** ** The coin fetcher *)

(** C9: with max_coins at most zero the loop body never runs: the result
    is the empty list and the world is untouched, so nothing was sent. *)
Theorem fetch_coins_by_category_no_budget (fuel : nat)
  (category_id category_name : string) (max_coins : Z) (w : World) :
  (max_coins <= 0)%Z ->
  fetch_coins_by_category (S fuel) category_id category_name max_coins w
  = (Ret [], w).
Proof.
  intros Hmax. unfold fetch_coins_by_category. cbn [fetch_coins_loop andb].
  change (Z.of_nat (length [])) with 0%Z.
  by rewrite (proj2 (Z.ltb_ge _ _) Hmax).
Qed.

Lemma fetch_coins_by_category_no_budget_witness :
  (0 <= 0)%Z
  /\ fetch_coins_by_category 1 "ai" "AI" 0
       (initial_world (fun _ => (0%Q, ConnectionFailed)))
     = (Ret [], initial_world (fun _ => (0%Q, ConnectionFailed))).
Proof.
  split; [lia|].
  apply (fetch_coins_by_category_no_budget 0 "ai" "AI" 0). lia.
Defined.

Lemma serves_next (w w' : World) (pages : nat -> page) :
  serves w pages -> network w' = network w -> n_get w' = S (n_get w) ->
  serves w' (fun i => pages (S i)).
Proof.
  intros Hs Hn Hc i. specialize (Hs (S i)). rewrite Hn, Hc.
  by replace (S (n_get w) + i)%nat with (n_get w + S i)%nat by lia.
Qed.

Lemma py_slice_to_pos {A} (k : Z) (l : list A) :
  (0 <= k)%Z -> py_slice_to k l = take (Z.to_nat k) l.
Proof. intros Hk. unfold py_slice_to. by rewrite (proj2 (Z.leb_le _ _) Hk). Qed.

Lemma take_app_exact {A} (n : nat) (l1 l2 : list A) :
  (length l1 <= n)%nat ->
  take n (l1 ++ l2) = (l1 ++ take (n - length l1) l2)%list.
Proof.
  intros Hle. rewrite take_app. by rewrite (take_ge l1 n).
Qed.

(** The loop from any of its states: [coins] collected so far, [page]
    the next page to ask for. *)
Lemma fetch_coins_loop_spec (category_id : string) (max_coins : Z) :
  forall fuel page coins pages w,
    (1 <= max_requests (limiter w))%Z ->
    serves w pages ->
    (Z.to_nat (max_coins - Z.of_nat (length coins)) + 2 <= fuel)%nat ->
    exists k w',
      fetch_coins_loop fuel category_id max_coins page true coins w
      = (match stopped_by_error pages k with
         | Some s => Exc (HTTPError s)
         | None =>
             Ret (coins
                  ++ take (Z.to_nat (max_coins - Z.of_nat (length coins)))
                          (page_ids pages k))%list
         end, w')
      /\ gets (trace w')
         = (gets (trace w) ++ page_requests category_id page k)%list
      /\ n_get w' = (n_get w + k)%nat
      /\ ((Z.of_nat (length coins) < max_coins)%Z -> (1 <= k)%nat)
      /\ ((max_coins <= Z.of_nat (length coins))%Z -> k = 0%nat)
      /\ (forall i,
             (S i < k)%nat ->
             exists l,
               pages i = Listed l /\ (250 <= length l)%nat
               /\ (Z.of_nat (length coins + length (page_ids pages (S i)))
                   < max_coins)%Z)
      /\ (forall j,
             k = S j ->
             match pages j with
             | Listed l =>
                 (length l < 250)%nat
                 \/ (max_coins
                     <= Z.of_nat (length coins
                                  + length (page_ids pages (S j))))%Z
             | NoResponse | ErrorStatus _ => True
             end).
Proof.
  induction fuel as [|fuel IH]; intros page coins pages w Hmax Hs Hfuel;
    [lia|].
  cbn [fetch_coins_loop andb].
  destruct (Z.of_nat (length coins) <? max_coins)%Z eqn:Hroom.
  2:{ apply Z.ltb_ge in Hroom. exists 0%nat, w.
      cbn [stopped_by_error page_ids page_requests].
      rewrite take_nil, !app_nil_r.
      repeat split; try done; try lia. }
  apply Z.ltb_lt in Hroom.
  destruct fuel as [|fuel]; [lia|].
  destruct (safe_request_round fuel markets_url
              (Some (coin_params category_id page)) w Hmax)
    as (w1 & Hw1 & Hrun).
  destruct (attempted_facts _ _ _ _ Hw1) as (Hn1 & Hc1 & Hm1 & Hg1).
  unfold bind at 1. rewrite Hrun. clear Hrun.
  pose proof (Hs 0%nat) as Hs0. rewrite Nat.add_0_r in Hs0.
  destruct (pages 0%nat) as [l| |s] eqn:Hp0.
  - destruct Hs0 as [h ->]. change (is_error_status 200) with false.
    cbv iota.
    destruct l as [|c l].
    + (* an empty page *)
      cbn [truthy nonempty fetch_coins_loop andb]. unfold ret.
      exists 1%nat, w1. cbn [stopped_by_error page_ids page_requests].
      rewrite Hp0. cbn [listed_ids fmap list_fmap app].
      rewrite take_nil, !app_nil_r.
      split; [done|]. split; [done|]. split; [lia|]. split; [done|].
      split; [lia|]. split; [intros i Hi; lia|].
      intros j [= <-]. rewrite Hp0. left. simpl. lia.
    + cbn [truthy nonempty].
      set (new_coins := c_id <$> c :: l).
      rewrite py_slice_to_pos by lia.
      set (room := Z.to_nat (max_coins - Z.of_nat (length coins))).
      assert (Hnew : length new_coins = length (c :: l))
        by (unfold new_coins; by rewrite length_fmap).
      destruct ((Z.of_nat (length (coins ++ take room new_coins)) >=? max_coins)%Z
                || (Z.of_nat (length new_coins) <? per_page)%Z) eqn:Hstop.
      * (* the budget is reached, or the page is short *)
        cbn [fetch_coins_loop andb]. unfold ret.
        exists 1%nat, w1. cbn [stopped_by_error page_ids page_requests].
        rewrite Hp0. cbn [listed_ids]. fold new_coins. rewrite !app_nil_r.
        split; [done|]. split; [done|]. split; [lia|]. split; [done|].
        split; [lia|]. split; [intros i Hi; lia|].
        intros j [= <-]. rewrite Hp0.
        apply orb_true_iff in Hstop as [Hbudget|Hshort].
        -- right. rewrite Z.geb_leb in Hbudget. apply Z.leb_le in Hbudget.
           rewrite length_app, length_take in Hbudget.
           cbn [page_ids]. rewrite app_nil_r. lia.
        -- left. apply Z.ltb_lt in Hshort. unfold per_page in Hshort. lia.
      * apply orb_false_iff in Hstop as [Hbudget Hfull].
        rewrite Z.geb_leb in Hbudget. apply Z.leb_gt in Hbudget.
        apply Z.ltb_ge in Hfull.
        unfold per_page in Hfull.
        rewrite length_app, length_take in Hbudget.
        assert (Hall : (length new_coins < room)%nat) by lia.
        rewrite (take_ge new_coins room) by lia.
        destruct (IH (page + 1)%Z (coins ++ new_coins)%list
                    (fun i => pages (S i)) w1)
          as (k & w' & Hrun & Hg & Hc & Hk1 & Hk0 & Hpages & Hlast).
        { lia. }
        { by apply (serves_next w). }
        { rewrite length_app. lia. }
        destruct k as [|j'].
        { rewrite length_app in Hk1. lia. }
        exists (S (S j')), w'. rewrite Hrun.
        change (stopped_by_error pages (S (S j')))
          with (stopped_by_error (fun i => pages (S i)) (S j')).
        cbn [page_ids page_requests].
        rewrite Hp0. cbn [listed_ids]. fold new_coins.
        split; [|split; [|split; [|split; [|split; [|split]]]]].
        -- destruct (stopped_by_error (fun i => pages (S i)) (S j'));
             [done|].
           f_equal. rewrite <- app_assoc. f_equal.
           rewrite (take_app_exact room new_coins) by lia.
           rewrite length_app.
           replace (Z.to_nat (max_coins
                              - Z.of_nat (length coins + length new_coins)))
             with (room - length new_coins)%nat by (unfold room; lia).
           done.
        -- rewrite Hg, Hg1. by rewrite <- app_assoc.
        -- lia.
        -- lia.
        -- lia.
        -- intros [|i] Hi.
           ++ exists (c :: l). split; [done|]. split; [lia|].
              cbn [page_ids]. rewrite ?Hp0. cbn [listed_ids].
              fold new_coins. rewrite app_nil_r. lia.
           ++ destruct (Hpages i ltac:(lia)) as (l' & Hl' & Hlen & Htot).
              exists l'. split; [done|]. split; [done|].
              cbn [page_ids] in Htot |- *. rewrite ?Hp0. cbn [listed_ids].
              fold new_coins. rewrite !length_app in Htot |- *. lia.
        -- intros j [= <-]. specialize (Hlast j' eq_refl).
           cbn beta in Hlast. destruct (pages (S j')) as [l'| |s']; [|done..].
           destruct Hlast as [Hshort|Hbudget']; [by left|right].
           cbn [page_ids] in Hbudget' |- *. rewrite ?Hp0. cbn [listed_ids].
           fold new_coins. rewrite !length_app in Hbudget' |- *. lia.
  - (* no response *)
    rewrite Hs0. cbn [truthy fetch_coins_loop andb]. unfold ret.
    exists 1%nat, w1. cbn [stopped_by_error page_ids page_requests].
    rewrite Hp0. cbn [listed_ids app].
    rewrite take_nil, !app_nil_r.
    split; [done|]. split; [done|]. split; [lia|]. split; [done|].
    split; [lia|]. split; [intros i Hi; lia|].
    intros j [= <-]. by rewrite Hp0.
  - (* an HTTP error status *)
    destruct Hs0 as [[Hrange Hne] (body & h & ->)].
    rewrite error_status_4xx_5xx by done.
    rewrite (proj2 (Z.eqb_neq _ _) Hne).
    exists 1%nat, w1. cbn [stopped_by_error page_requests].
    rewrite Hp0.
    split; [done|]. split; [done|]. split; [lia|]. split; [done|].
    split; [lia|]. split; [intros i Hi; lia|].
    intros j [= <-]. by rewrite Hp0.
Qed.

(** C3, as amended: with enough fuel [fetch_coins_by_category] ends.
    It asks for the pages one after the other from page 1, and goes on
    to the next page exactly after a page with at least 250 items that
    leaves the total below max_coins: the last page it asks for is a
    short page, a page that fills the budget, a request without
    response or an HTTP error, and no page before it is any of these.
    Unless that last page is an HTTP error, which is raised, the value
    is the ids of the pages in order, cut at max_coins, so its length is
    at most max(max_coins, 0). *)
Theorem fetch_coins_by_category_spec (fuel : nat)
  (category_id category_name : string) (max_coins : Z)
  (pages : nat -> page) (w : World) :
  (1 <= max_requests (limiter w))%Z ->
  serves w pages ->
  (Z.to_nat max_coins + 2 <= fuel)%nat ->
  exists k w',
    fetch_coins_by_category fuel category_id category_name max_coins w
    = (match stopped_by_error pages k with
       | Some s => Exc (HTTPError s)
       | None => Ret (take (Z.to_nat max_coins) (page_ids pages k))
       end, w')
    /\ (Z.of_nat (length (take (Z.to_nat max_coins) (page_ids pages k)))
        <= Z.max 0 max_coins)%Z
    /\ gets (trace w')
       = (gets (trace w) ++ page_requests category_id 1 k)%list
    /\ n_get w' = (n_get w + k)%nat
    /\ ((0 < max_coins)%Z -> (1 <= k)%nat)
    /\ ((max_coins <= 0)%Z -> k = 0%nat)
    /\ (forall i,
           (S i < k)%nat ->
           exists l,
             pages i = Listed l /\ (250 <= length l)%nat
             /\ (Z.of_nat (length (page_ids pages (S i))) < max_coins)%Z)
    /\ (forall j,
           k = S j ->
           match pages j with
           | Listed l =>
               (length l < 250)%nat
               \/ (max_coins <= Z.of_nat (length (page_ids pages (S j))))%Z
           | NoResponse | ErrorStatus _ => True
           end).
Proof.
  intros Hmax Hs Hfuel. unfold fetch_coins_by_category.
  destruct (fetch_coins_loop_spec category_id max_coins fuel 1 [] pages w
              Hmax Hs)
    as (k & w' & Hrun & Hg & Hc & Hk1 & Hk0 & Hpages & Hlast).
  { simpl. by rewrite Z.sub_0_r. }
  simpl in Hrun, Hk1, Hk0, Hpages, Hlast. rewrite Z.sub_0_r in Hrun.
  exists k, w'. split; [exact Hrun|]. split; [rewrite length_take; lia|].
  repeat split; try done.
Qed.

(** A full first page and a budget of a thousand.  When the second page
    lists three coins, both pages are asked for and no third, and the
    253 ids are returned; when the second request meets status 500, the
    error is raised after these two requests. *)
Lemma fetch_coins_by_category_spec_witness :
  let full_page : list coin :=
    (fun n => {| c_id := str_of_nat n |}) <$> seq 0 250 in
  let pages (i : nat) : page :=
    match i with
    | 0%nat => Listed full_page
    | 1%nat => Listed [{| c_id := "a" |}; {| c_id := "b" |}; {| c_id := "c" |}]
    | _ => NoResponse
    end in
  let pages_err (i : nat) : page :=
    match i with
    | 0%nat => Listed full_page
    | _ => ErrorStatus 500
    end in
  let w := initial_world (network_of_pages 0 pages) in
  let w_err := initial_world (network_of_pages 0 pages_err) in
  (((1 <= max_requests (limiter w))%Z /\ serves w pages)
   /\ exists w',
        fetch_coins_by_category 1002 "layer-1" "Layer 1" 1000 w
        = (Ret (take 1000 (page_ids pages 2)), w')
        /\ length (take 1000 (page_ids pages 2)) = 253%nat
        /\ gets (trace w')
           = (gets (trace w) ++ page_requests "layer-1" 1 2)%list
        /\ n_get w' = (n_get w + 2)%nat)
  /\ (((1 <= max_requests (limiter w_err))%Z /\ serves w_err pages_err)
      /\ exists w',
           fetch_coins_by_category 1002 "layer-1" "Layer 1" 1000 w_err
           = (Exc (HTTPError 500), w')
           /\ n_get w' = (n_get w_err + 2)%nat).
Proof.
  intros full_page pages pages_err w w_err.
  assert (Hmax : (1 <= max_requests (limiter w))%Z) by (simpl; lia).
  assert (Hmax_err : (1 <= max_requests (limiter w_err))%Z) by (simpl; lia).
  assert (Hs : serves w pages).
  { intros i. simpl. unfold network_of_pages.
    destruct (pages i) eqn:E; [eauto|done|].
    destruct i as [|[|i]]; discriminate E. }
  assert (Hs_err : serves w_err pages_err).
  { intros i. simpl. unfold network_of_pages.
    destruct i as [|i]; simpl; [eauto|].
    split; [lia|]. by exists None, ∅. }
  split.
  - split; [by split|].
    destruct (fetch_coins_by_category_spec 1002 "layer-1" "Layer 1" 1000
                pages w Hmax Hs)
      as (k & w' & Hrun & _ & Hg & Hn & Hk1 & _ & Hfull & Hlast);
      [simpl; lia|].
    assert (Hk : k = 2%nat).
    { destruct k as [|[|[|k]]].
      - specialize (Hk1 ltac:(lia)). lia.
      - specialize (Hlast 0%nat eq_refl). vm_compute in Hlast.
        destruct Hlast as [H|H]; [lia|]. exfalso. by apply H.
      - reflexivity.
      - destruct (Hfull 1%nat ltac:(lia)) as (l & Hl & Hlen & _).
        injection Hl as <-. simpl in Hlen. lia. }
    subst k. exists w'. split; [exact Hrun|]. split; [|by split].
    vm_compute. reflexivity.
  - split; [by split|].
    destruct (fetch_coins_by_category_spec 1002 "layer-1" "Layer 1" 1000
                pages_err w_err Hmax_err Hs_err)
      as (k & w' & Hrun & _ & _ & Hn & Hk1 & _ & Hfull & Hlast);
      [simpl; lia|].
    assert (Hk : k = 2%nat).
    { destruct k as [|[|[|k]]].
      - specialize (Hk1 ltac:(lia)). lia.
      - specialize (Hlast 0%nat eq_refl). vm_compute in Hlast.
        destruct Hlast as [H|H]; [lia|]. exfalso. by apply H.
      - reflexivity.
      - destruct (Hfull 1%nat ltac:(lia)) as (l & Hl & _).
        discriminate Hl. }
    subst k. exists w'. split; [exact Hrun|exact Hn].
Defined.

(** C3 as stated fails for a negative max_coins: the result is empty, and
    its length, zero, is above the bound. *)
Lemma fetch_coins_by_category_negative_bound :
  let w := initial_world (network_of_pages 0 (fun _ => NoResponse)) in
  fetch_coins_by_category 1 "layer-1" "Layer 1" (-1) w = (Ret [], w)
  /\ ~ (forall fuel category_id category_name max_coins w coins w',
           fetch_coins_by_category fuel category_id category_name max_coins w
           = (Ret coins, w') ->
           (Z.of_nat (length coins) <= max_coins)%Z).
Proof.
  intros w. split; [reflexivity|]. intros Hclaim.
  specialize (Hclaim 1%nat "layer-1" "Layer 1" (-1)%Z w [] w eq_refl).
  simpl in Hclaim. lia.
Qed.

(** ** The rate limiter under a clock that stands still *)

(** C4 fails on the code: three calls on [RateLimiter(1, 2)] while the
    clock reads the same value at the start of a call as at the end of the
    one before.  The second call sleeps its two seconds and records 2; the
    third finds the queue [0, 2] at time 2, keeps the entry 0 (it is not
    older than the period), sleeps 0 + 2 - 2 = 0 seconds and records 2
    again: the trailing window (0, 2] then holds two timestamps, one more
    than max_requests allows. *)
Theorem wait_stalled_clock :
  let w := initial_world (fun _ => (0%Q, ConnectionFailed)) in
  exists w',
    wait_calls [0%Q; 0%Q; 0%Q] w = (Ret [0%Q; 2%Q; 2%Q], w')
    /\ requests (limiter w') = [0%Q; 2%Q; 2%Q]
    /\ trace w' = [EvSleep 2; EvSleep 0]
    /\ in_window (period (limiter w')) 2 [0%Q; 2%Q; 2%Q] = [2%Q; 2%Q]
    /\ (max_requests (limiter w')
        < Z.of_nat (length (in_window (period (limiter w')) 2
                              [0%Q; 2%Q; 2%Q])))%Z.
Proof.
  intros w. eexists. split; [vm_compute; reflexivity|].
  split; [reflexivity|]. split; [reflexivity|].
  split; [vm_compute; reflexivity|]. vm_compute. reflexivity.
Qed.

(** ** The rate limiter under a clock that moves on between calls *)

Lemma in_window_iff (p t x : Q) :
  Is_true (Qltb (t - p) x && Qle_bool x t) <-> (t - p < x)%Q /\ (x <= t)%Q.
Proof.
  rewrite andb_True, !Is_true_true, Qltb_true, Qle_bool_iff. done.
Qed.

Lemma in_window_none (p t : Q) (l : list Q) :
  Forall (fun x => ~ ((t - p < x)%Q /\ (x <= t)%Q)) l ->
  in_window p t l = [].
Proof.
  unfold in_window. induction 1 as [|x l Hx Hl IH]; [done|].
  rewrite filter_cons, decide_False; [done|]. by rewrite in_window_iff.
Qed.

Lemma in_window_all (p t : Q) (l : list Q) :
  Forall (fun x => (t - p < x)%Q /\ (x <= t)%Q) l ->
  in_window p t l = l.
Proof.
  unfold in_window. induction 1 as [|x l Hx Hl IH]; [done|].
  rewrite filter_cons, decide_True; [by f_equal|]. by rewrite in_window_iff.
Qed.

Lemma in_window_app (p t : Q) (l1 l2 : list Q) :
  in_window p t (l1 ++ l2) = (in_window p t l1 ++ in_window p t l2)%list.
Proof. apply filter_app. Qed.

Lemma in_window_length (p t : Q) (l : list Q) :
  (length (in_window p t l) <= length l)%nat.
Proof. apply length_filter. Qed.

Lemma ascending_snoc (l : list Q) (a : Q) :
  ascending l -> Forall (fun x => (x <= a)%Q) l -> ascending (l ++ [a]).
Proof.
  induction l as [|x l IH]; simpl; [done|].
  intros [Hx Hl] Ha. apply Forall_cons in Ha as [Hxa Ha].
  split; [|by apply IH]. apply Forall_app. split; [done|].
  by apply Forall_singleton.
Qed.

Lemma ascending_app_r (l1 l2 : list Q) :
  ascending (l1 ++ l2) -> ascending l2.
Proof. induction l1 as [|x l1 IH]; simpl; [done|]. intros [_ H]. auto. Qed.

(** [prune] drops a prefix of entries older than the period and stops at
    the first entry that is not. *)
Lemma prune_split (c p : Q) (rs : list Q) :
  exists dropped,
    rs = (dropped ++ prune c p rs)%list
    /\ Forall (fun x => (x < c - p)%Q) dropped.
Proof.
  induction rs as [|r rs (dropped & Heq & Hd)]; simpl.
  - by exists [].
  - destruct (Qltb r (c - p)) eqn:E.
    + exists (r :: dropped). split; [simpl; by f_equal|].
      apply Forall_cons. split; [by apply Qltb_true|done].
    + by exists [].
Qed.

Lemma prune_ascending_bound (c p : Q) (rs : list Q) :
  ascending rs -> Forall (fun x => (c - p <= x)%Q) (prune c p rs).
Proof.
  intros Hasc. destruct (prune_split c p rs) as (dropped & Heq & _).
  rewrite Heq in Hasc. apply ascending_app_r in Hasc.
  destruct (prune c p rs) as [|r0 tl] eqn:E; [done|].
  apply prune_head in E. destruct Hasc as [Htl _].
  apply Forall_cons. split; [done|].
  eapply Forall_impl; [exact Htl|]. intros x Hx. simpl in Hx. lra.
Qed.

(** The effect of one call of [wait()]. *)
Lemma wait_effect (w : World) :
  (1 <= max_requests (limiter w))%Z ->
  exists w' a,
    wait w = (Ret tt, w')
    /\ requests (limiter w')
       = (prune (clock w) (period (limiter w)) (requests (limiter w))
          ++ [a])%list
    /\ clock w' = a
    /\ max_requests (limiter w') = max_requests (limiter w)
    /\ period (limiter w') = period (limiter w)
    /\ (((Z.of_nat (length (prune (clock w) (period (limiter w))
                              (requests (limiter w))))
          < max_requests (limiter w))%Z /\ a = clock w)
        \/ exists r0 tl,
             prune (clock w) (period (limiter w)) (requests (limiter w))
             = r0 :: tl
             /\ a = (clock w + (r0 + period (limiter w) - clock w))%Q).
Proof.
  intros Hmax. unfold wait, bind, monotonic, get_limiter, set_requests.
  cbn [clock limiter network n_get trace requests max_requests period].
  set (rs := prune (clock w) (period (limiter w)) (requests (limiter w))).
  destruct (Z.of_nat (length rs) >=? max_requests (limiter w))%Z eqn:Efull.
  - destruct rs as [|r0 rest] eqn:Ers.
    + apply Z.geb_le in Efull. simpl in Efull. lia.
    + unfold sleep. cbn [clock limiter network n_get trace].
      pose proof (prune_head _ _ _ _ _ Ers) as Hhead.
      assert (Hnn : Qltb (r0 + period (limiter w) - clock w) 0 = false).
      { apply Qltb_false. lra. }
      rewrite Hnn. eexists _, _. split; [reflexivity|]. simpl.
      repeat split; try done. right. by exists r0, rest.
  - unfold ret. eexists _, _. split; [reflexivity|]. simpl.
    repeat split; try done. left. split; [|done].
    rewrite Z.geb_leb in Efull. by apply Z.leb_gt in Efull.
Qed.

Lemma in_window_singleton_later (p t a : Q) :
  (t < a)%Q -> in_window p t [a] = [].
Proof.
  intros Hlt. apply in_window_none, Forall_singleton. lra.
Qed.

(** One call after some time has passed keeps the invariant and adds its
    timestamp to the history. *)
Lemma limiter_inv_step (w : World) (old hist : list Q) (gap : Q) :
  (1 <= max_requests (limiter w))%Z ->
  limiter_inv w old hist ->
  (0 < gap)%Q ->
  exists w' a old',
    bind (elapse gap) (fun _ => wait) w = (Ret tt, w')
    /\ last (requests (limiter w')) = Some a
    /\ max_requests (limiter w') = max_requests (limiter w)
    /\ period (limiter w') = period (limiter w)
    /\ limiter_inv w' old' (hist ++ [a]).
Proof.
  intros Hmax (Hhist & Hasc & Hold & Hpast & Hnow & Hall) Hgap.
  set (w0 := {| clock := clock w + gap; limiter := limiter w;
                network := network w; n_get := n_get w;
                trace := trace w |}).
  destruct (wait_effect w0 Hmax) as (w' & a & Hrun & Hreq & Hclock & Hm & Hp & Hcase).
  cbn [clock limiter w0] in Hreq, Hm, Hp, Hcase.
  set (p := period (limiter w)) in *.
  set (c := (clock w + gap)%Q) in *.
  set (rs := prune c p (requests (limiter w))) in *.
  destruct (prune_split c p (requests (limiter w)))
    as (dropped & Hsplit & Hdropped).
  fold rs in Hsplit.
  assert (Hhist' : hist = ((old ++ dropped) ++ rs)%list)
    by (by rewrite Hhist, Hsplit at 1; rewrite app_assoc).
  assert (Hrs_lo : Forall (fun x => (c - p <= x)%Q) rs).
  { apply prune_ascending_bound. rewrite Hhist in Hasc.
    by apply ascending_app_r in Hasc. }
  assert (Hrs_hi : Forall (fun x => (x <= clock w)%Q) rs).
  { rewrite Hhist' in Hpast. by apply Forall_app in Hpast as [_ ?]. }
  assert (Hca : (c <= a)%Q).
  { destruct Hcase as [[_ ->]|(r0 & tl & Ers & ->)]; [lra|].
    rewrite Ers in Hrs_lo. apply Forall_cons in Hrs_lo as [Hr0 _]. lra. }
  assert (Hold' : Forall (fun x => (x < a - p)%Q) (old ++ dropped)).
  { apply Forall_app. split.
    - eapply Forall_impl; [exact Hold|]. intros x Hx. simpl in Hx.
      fold p in Hx. unfold c in Hca. lra.
    - eapply Forall_impl; [exact Hdropped|]. intros x Hx. simpl in Hx. lra. }
  assert (Hrs_len : (Z.of_nat (length rs) <= max_requests (limiter w))%Z).
  { etrans; [|exact Hnow]. apply inj_le. fold p. rewrite Hhist'.
    rewrite (in_window_app p (clock w) (old ++ dropped) rs), length_app.
    rewrite (in_window_all p (clock w) rs); [lia|].
    apply Forall_forall. intros x Hx.
    rewrite Forall_forall in Hrs_lo, Hrs_hi.
    specialize (Hrs_lo x Hx). specialize (Hrs_hi x Hx).
    simpl in Hrs_lo. unfold c in Hrs_lo. lra. }
  assert (Hwin_a : (Z.of_nat (length (in_window p a (hist ++ [a])))
                    <= max_requests (limiter w))%Z).
  { rewrite Hhist'.
    rewrite (in_window_app p a ((old ++ dropped) ++ rs) [a]).
    rewrite (in_window_app p a (old ++ dropped) rs), !length_app.
    rewrite (in_window_none p a (old ++ dropped)).
    2:{ eapply Forall_impl; [exact Hold'|]. intros x Hx. simpl in Hx. lra. }
    pose proof (in_window_length p a [a]) as H1. simpl in H1. simpl length at 1.
    destruct Hcase as [[Hlt _]|(r0 & tl & Ers & Ha)].
    - pose proof (in_window_length p a rs). lia.
    - rewrite Ers. unfold in_window at 1.
      rewrite filter_cons, decide_False.
      2:{ rewrite in_window_iff. rewrite Ha. lra. }
      fold (in_window p a tl). pose proof (in_window_length p a tl).
      rewrite Ers in Hrs_len. simpl in Hrs_len. lia. }
  exists w', a, (old ++ dropped)%list.
  split; [change (bind (elapse gap) (fun _ => wait) w) with (wait w0);
          exact Hrun|].
  split; [by rewrite Hreq, last_snoc|]. split; [done|]. split; [done|].
  unfold limiter_inv. rewrite Hclock, Hm, Hp. fold p.
  split; [by rewrite Hreq, Hhist', !app_assoc|].
  split.
  { apply ascending_snoc; [done|]. eapply Forall_impl; [exact Hpast|].
    intros x Hx. simpl in Hx. unfold c in Hca. lra. }
  split; [done|]. split.
  { apply Forall_app. split.
    - eapply Forall_impl; [exact Hpast|]. intros x Hx. simpl in Hx.
      unfold c in Hca. lra.
    - apply Forall_singleton. lra. }
  split; [done|].
  apply Forall_app. split; [|by apply Forall_singleton].
  rewrite Forall_forall in Hall, Hpast |- *. intros t Ht.
  rewrite in_window_app, in_window_singleton_later, app_nil_r.
  - apply (Hall t Ht).
  - specialize (Hpast t Ht). simpl in Hpast. unfold c in Hca. lra.
Qed.

Lemma wait_calls_inv (gaps : list Q) :
  forall w old hist,
    (1 <= max_requests (limiter w))%Z ->
    limiter_inv w old hist ->
    Forall (fun gap => (0 < gap)%Q) gaps ->
    exists stamps w' old',
      wait_calls gaps w = (Ret stamps, w')
      /\ length stamps = length gaps
      /\ max_requests (limiter w') = max_requests (limiter w)
      /\ period (limiter w') = period (limiter w)
      /\ limiter_inv w' old' (hist ++ stamps).
Proof.
  induction gaps as [|gap gaps IH]; intros w old hist Hmax Hinv Hgaps.
  - exists [], w, old. rewrite app_nil_r.
    split; [done|]. split; [done|]. split; [done|]. by split.
  - apply Forall_cons in Hgaps as [Hgap Hgaps].
    destruct (limiter_inv_step w old hist gap Hmax Hinv Hgap)
      as (w1 & a & old1 & Hrun1 & Hlast & Hm1 & Hp1 & Hinv1).
    destruct (IH w1 old1 (hist ++ [a])%list) as
      (stamps & w' & old' & Hrun & Hlen & Hm & Hp & Hinv'); [lia|done..|].
    exists (a :: stamps), w', old'.
    split; [|split; [simpl; lia|split; [congruence|split; [congruence|]]]].
    + cbn [wait_calls].
      change (bind (elapse gap) (fun _ => wait) w = (Ret tt, w1)) in Hrun1.
      unfold bind in Hrun1 |- *. destruct (elapse gap w) as [[[]| |] w0];
        try discriminate.
      rewrite Hrun1. unfold get_limiter. rewrite Hrun. unfold ret.
      by rewrite Hlast.
    + by rewrite <- app_assoc in Hinv'.
Qed.

Lemma ascending_le_last (l : list Q) (m : Q) :
  ascending l -> last l = Some m -> Forall (fun x => (x <= m)%Q) l.
Proof.
  intros Hasc Hlast. apply last_Some in Hlast as [l' ->].
  apply Forall_app. split; [|apply Forall_singleton; lra].
  induction l' as [|x l' IH]; [done|]. simpl in Hasc.
  destruct Hasc as [Hx Hasc]. apply Forall_cons. split; [|by apply IH].
  rewrite Forall_app, Forall_singleton in Hx. by destruct Hx.
Qed.

Lemma ascending_in_window (p t : Q) (l : list Q) :
  ascending l -> ascending (in_window p t l).
Proof.
  unfold in_window. induction l as [|x l IH]; [done|]. simpl.
  intros [Hx Hasc]. rewrite filter_cons. case_decide; [|by apply IH].
  simpl. split; [|by apply IH].
  apply Forall_forall. intros y Hy. apply list_elem_of_filter in Hy as [_ Hy].
  rewrite Forall_forall in Hx. by apply Hx.
Qed.

Lemma in_window_length_mono (p t t' : Q) (l : list Q) :
  Forall (fun x => (t - p < x)%Q /\ (x <= t)%Q ->
                   (t' - p < x)%Q /\ (x <= t')%Q) l ->
  (length (in_window p t l) <= length (in_window p t' l))%nat.
Proof.
  unfold in_window. induction 1 as [|x l Hx Hl IH]; [done|].
  rewrite !filter_cons. destruct (decide _) as [H1|H1].
  - rewrite decide_True; [simpl; lia|].
    apply in_window_iff, Hx. by apply in_window_iff.
  - destruct (decide _); simpl; lia.
Qed.

(** A window that ends at any time holds no more than the fullest window
    that ends at a recorded timestamp. *)
Lemma in_window_any_time (p t : Q) (l : list Q) (n : Z) :
  (0 <= n)%Z -> ascending l ->
  Forall (fun t' => (Z.of_nat (length (in_window p t' l)) <= n)%Z) l ->
  (Z.of_nat (length (in_window p t l)) <= n)%Z.
Proof.
  intros Hn Hasc Hall.
  destruct (last (in_window p t l)) as [t'|] eqn:Hlast.
  - assert (Hin : t' ∈ in_window p t l).
    { apply last_Some in Hlast as [l' ->]. set_solver. }
    apply list_elem_of_filter in Hin as [Ht' Hin].
    apply in_window_iff in Ht' as [Hlo Hhi].
    rewrite Forall_forall in Hall. etrans; [|exact (Hall t' Hin)].
    apply inj_le, in_window_length_mono.
    apply Forall_forall. intros x Hx [Hxlo Hxhi].
    assert (Hxin : x ∈ in_window p t l).
    { apply list_elem_of_filter. split; [|done]. by apply in_window_iff. }
    pose proof (ascending_le_last _ _ (ascending_in_window p t l Hasc) Hlast)
      as Hle.
    rewrite Forall_forall in Hle. specialize (Hle x Hxin). simpl in Hle.
    lra.
  - apply last_None in Hlast. rewrite Hlast. simpl. lia.
Qed.

(** When the clock has moved on, by however little, between the end of one
    call and the start of the next, no trailing window, whenever it ends,
    holds more than max_requests of the recorded timestamps. *)
Lemma wait_calls_window_bound (gaps : list Q) (w : World) :
  (1 <= max_requests (limiter w))%Z ->
  requests (limiter w) = [] ->
  Forall (fun gap => (0 < gap)%Q) gaps ->
  exists stamps w',
    wait_calls gaps w = (Ret stamps, w')
    /\ length stamps = length gaps
    /\ forall t,
         (Z.of_nat (length (in_window (period (limiter w)) t stamps))
          <= max_requests (limiter w))%Z.
Proof.
  intros Hmax Hempty Hgaps.
  destruct (wait_calls_inv gaps w [] [] Hmax) as
    (stamps & w' & old' & Hrun & Hlen & Hm & Hp & Hinv); [|done|].
  { unfold limiter_inv. rewrite Hempty. simpl. repeat split; try done. lia. }
  exists stamps, w'. split; [done|]. split; [done|].
  destruct Hinv as (_ & Hasc & _ & _ & _ & Hall). simpl in Hasc, Hall.
  rewrite Hm, Hp in Hall. intros t.
  apply in_window_any_time; [lia|done..].
Qed.
